(** * TextShare: codec, link router and bounded history

    A shallow embedding of [src/index.jsx].  The three parts of the
    application that carry invariants are embedded:

    - the codec [encodeText] / [decodeText] (text <-> URL-fragment token),
    - the hash-change handler [handleHashChange] (the link router),
    - the link generation handler [handleGenerate] together with the
      history load of the start-up effect.

    JavaScript strings are sequences of UTF-16 code units; they are
    modelled as lists of integers.  The built-ins the source calls
    ([encodeURIComponent], [decodeURIComponent], [btoa], [atob],
    [String.prototype.replace], [trim], [JSON.parse], [JSON.stringify])
    are embedded after their defining standards (ECMA-262, the HTML
    standard's forgiving base64), since the behaviour of the source is
    the behaviour of these calls.  So is the assignment to
    [window.location.hash]: it navigates to the new fragment, and the
    browser then dispatches a [hashchange] event to the listener that
    the component has registered. *)

From Stdlib Require Import String Ascii ZArith List Lia Bool.
From Stdlib Require DecimalPos DecimalFacts DecimalZ.
Import ListNotations.
Local Open Scope Z_scope.

(* ================================================================== *)
(** * Part I: definitions *)
(* ================================================================== *)

(** ** JavaScript strings *)

(** A string is a list of UTF-16 code units, each in [0, 0xFFFF]. *)
Definition jsstring := list Z.

Definition code_unit (c : Z) : bool := (0 <=? c) && (c <? 65536).

(** String literals of the source: ASCII text to code units. *)
Definition js (s : string) : jsstring :=
  map (fun a => Z.of_N (N_of_ascii a)) (list_ascii_of_string s).

(** Code units that the source and the built-ins name explicitly. *)
Abbreviation PERCENT := 37 (only parsing).
Abbreviation PLUS := 43 (only parsing).
Abbreviation MINUS := 45 (only parsing).
Abbreviation SLASH := 47 (only parsing).
Abbreviation EQUALS := 61 (only parsing).
Abbreviation UNDERSCORE := 95 (only parsing).
Abbreviation HASH := 35 (only parsing).

Definition between (lo hi c : Z) : bool := (lo <=? c) && (c <=? hi).

Definition is_digit (c : Z) : bool := between 48 57 c.
Definition is_upper (c : Z) : bool := between 65 90 c.
Definition is_lower (c : Z) : bool := between 97 122 c.
Definition is_alnum (c : Z) : bool := is_digit c || is_upper c || is_lower c.

(** A code unit that is an octet: at most 0xFF. *)
Definition octet_range (b : Z) : bool := between 0 255 b.

Definition is_leading_surrogate (c : Z) : bool := between 55296 56319 c.
Definition is_trailing_surrogate (c : Z) : bool := between 56320 57343 c.

(** A string is well formed (a "valid Unicode string") when every
    surrogate code unit is part of a leading/trailing pair. *)
Fixpoint well_formed (s : jsstring) : bool :=
  match s with
  | [] => true
  | c :: r =>
      if is_leading_surrogate c then
        match r with
        | d :: r' => is_trailing_surrogate d && well_formed r'
        | [] => false
        end
      else if is_trailing_surrogate c then false
      else code_unit c && well_formed r
  end.

(** ** Hexadecimal digits *)

Module Hex.

(** Digit of [d] in [0, 15], upper case as [encodeURIComponent] writes
    it and lower case as [Number.prototype.toString(16)] does. *)
Definition upper (d : Z) : Z := if d <? 10 then 48 + d else 55 + d.
Definition lower (d : Z) : Z := if d <? 10 then 48 + d else 87 + d.

(** The class [[0-9A-F]] of the regular expression in [encodeText]. *)
Definition is_upper_hex (c : Z) : bool := is_digit c || between 65 70 c.

(** Value of a hexadecimal digit in either case (ParseHexOctet). *)
Definition value (c : Z) : option Z :=
  if is_digit c then Some (c - 48)
  else if between 65 70 c then Some (c - 55)
  else if between 97 102 c then Some (c - 87)
  else None.

Definition octet (h l : Z) : option Z :=
  match value h, value l with
  | Some a, Some b => Some (16 * a + b)
  | _, _ => None
  end.

End Hex.

(** ** UTF-8 and UTF-16 transformations (ECMA-262, 11.1 and 19.2.6) *)

Module Unicode.

(** UTF16SurrogatePairToCodePoint *)
Definition pair_to_code_point (lead trail : Z) : Z :=
  (lead - 55296) * 1024 + (trail - 56320) + 65536.

(** UTF16EncodeCodePoint *)
Definition utf16 (cp : Z) : jsstring :=
  if cp <=? 65535 then [cp]
  else [(cp - 65536) / 1024 + 55296; (cp - 65536) mod 1024 + 56320].

(** The UTF-8 transformation of a code point into octets. *)
Definition utf8 (cp : Z) : list Z :=
  if cp <? 128 then [cp]
  else if cp <? 2048 then [192 + cp / 64; 128 + cp mod 64]
  else if cp <? 65536 then
    [224 + cp / 4096; 128 + (cp / 64) mod 64; 128 + cp mod 64]
  else
    [240 + cp / 262144; 128 + (cp / 4096) mod 64;
     128 + (cp / 64) mod 64; 128 + cp mod 64].

Definition is_continuation (b : Z) : bool := between 128 191 b.

(** Code point of a two, three or four octet sequence, when the
    octets are a valid UTF-8 encoding: continuation octets of the form
    10xxxxxx, shortest form, no surrogate, at most U+10FFFF. *)
Definition decode2 (b0 b1 : Z) : option Z :=
  let cp := (b0 - 192) * 64 + (b1 - 128) in
  if is_continuation b1 && (128 <=? cp) then Some cp else None.

Definition decode3 (b0 b1 b2 : Z) : option Z :=
  let cp := ((b0 - 224) * 64 + (b1 - 128)) * 64 + (b2 - 128) in
  if is_continuation b1 && is_continuation b2 && (2048 <=? cp)
     && negb (between 55296 57343 cp)
  then Some cp else None.

Definition decode4 (b0 b1 b2 b3 : Z) : option Z :=
  let cp :=
    (((b0 - 240) * 64 + (b1 - 128)) * 64 + (b2 - 128)) * 64 + (b3 - 128) in
  if is_continuation b1 && is_continuation b2 && is_continuation b3
     && (65536 <=? cp) && (cp <=? 1114111)
  then Some cp else None.

End Unicode.

(** ** URI component coding (ECMA-262, 19.2.6) *)

Module URI.

(** The characters [encodeURIComponent] leaves alone: the ASCII word
    characters and [-.!~*'()]. *)
Definition unescaped (c : Z) : bool :=
  is_alnum c || (c =? UNDERSCORE) || (c =? MINUS) || (c =? 46)
  || (c =? 33) || (c =? 126) || (c =? 42) || (c =? 39) || (c =? 40)
  || (c =? 41).

(** ["%XX"] for one octet, upper case, padded to two digits. *)
Definition escape (b : Z) : jsstring :=
  [PERCENT; Hex.upper (b / 16); Hex.upper (b mod 16)].

Definition escape_all (bs : list Z) : jsstring := flat_map escape bs.

(** [encodeURIComponent]: [None] is the URIError thrown at an unpaired
    surrogate. *)
Fixpoint encodeURIComponent (s : jsstring) : option jsstring :=
  match s with
  | [] => Some []
  | c :: r =>
      if unescaped c then option_map (cons c) (encodeURIComponent r)
      else if is_leading_surrogate c then
        match r with
        | d :: r' =>
            if is_trailing_surrogate d then
              option_map
                (app (escape_all
                        (Unicode.utf8 (Unicode.pair_to_code_point c d))))
                (encodeURIComponent r')
            else None
        | [] => None
        end
      else if is_trailing_surrogate c then None
      else option_map (app (escape_all (Unicode.utf8 c)))
                      (encodeURIComponent r)
  end.

(** One escape ["%hl"] read as an octet. *)
Definition escaped (p h l : Z) : option Z :=
  if p =? PERCENT then Hex.octet h l else None.

(** [decodeURIComponent]: [None] is the URIError thrown at a malformed
    escape or at octets that are no valid UTF-8.  The inner loop over
    the [n - 1] continuation escapes (n <= 4) is unrolled. *)
Fixpoint decodeURIComponent (s : jsstring) : option jsstring :=
  match s with
  | [] => Some []
  | c :: r =>
      if negb (c =? PERCENT) then
        option_map (cons c) (decodeURIComponent r)
      else
        match r with
        | h :: l :: r1 =>
            match Hex.octet h l with
            | None => None
            | Some b =>
                if b <? 128 then
                  option_map (cons b) (decodeURIComponent r1)
                else if b <? 192 then None
                else if b <? 224 then
                  match r1 with
                  | p1 :: h1 :: l1 :: r2 =>
                      match escaped p1 h1 l1 with
                      | Some b1 =>
                          match Unicode.decode2 b b1 with
                          | Some cp =>
                              option_map (app (Unicode.utf16 cp))
                                         (decodeURIComponent r2)
                          | None => None
                          end
                      | None => None
                      end
                  | _ => None
                  end
                else if b <? 240 then
                  match r1 with
                  | p1 :: h1 :: l1 :: p2 :: h2 :: l2 :: r3 =>
                      match escaped p1 h1 l1, escaped p2 h2 l2 with
                      | Some b1, Some b2 =>
                          match Unicode.decode3 b b1 b2 with
                          | Some cp =>
                              option_map (app (Unicode.utf16 cp))
                                         (decodeURIComponent r3)
                          | None => None
                          end
                      | _, _ => None
                      end
                  | _ => None
                  end
                else if b <? 248 then
                  match r1 with
                  | p1 :: h1 :: l1 :: p2 :: h2 :: l2
                       :: p3 :: h3 :: l3 :: r4 =>
                      match escaped p1 h1 l1, escaped p2 h2 l2,
                            escaped p3 h3 l3 with
                      | Some b1, Some b2, Some b3 =>
                          match Unicode.decode4 b b1 b2 b3 with
                          | Some cp =>
                              option_map (app (Unicode.utf16 cp))
                                         (decodeURIComponent r4)
                          | None => None
                          end
                      | _, _, _ => None
                      end
                  | _ => None
                  end
                else None
            end
        | _ => None
        end
  end.

End URI.

(** ** Base64 (RFC 4648) and the forgiving decoder of [atob] *)

Module Base64.

(** The base64 alphabet: character of a sextet and sextet of a
    character ([A-Z] 0..25, [a-z] 26..51, [0-9] 52..61, [+] 62,
    [/] 63). *)
Definition char (i : Z) : Z :=
  if i <? 26 then 65 + i
  else if i <? 52 then 71 + i
  else if i <? 62 then i - 4
  else if i =? 62 then PLUS else SLASH.

Definition sextet (c : Z) : Z :=
  if is_upper c then c - 65
  else if is_lower c then c - 71
  else if is_digit c then c + 4
  else if c =? PLUS then 62 else 63.

Definition is_base64_char (c : Z) : bool :=
  is_alnum c || (c =? PLUS) || (c =? SLASH).

(** Three octets give four characters; a last group of one or two
    octets is padded with [=]. *)
Fixpoint encode (bs : list Z) : jsstring :=
  match bs with
  | a :: b :: c :: r =>
      char (a / 4) :: char ((a mod 4) * 16 + b / 16)
        :: char ((b mod 16) * 4 + c / 64) :: char (c mod 64) :: encode r
  | [a; b] =>
      [char (a / 4); char ((a mod 4) * 16 + b / 16);
       char ((b mod 16) * 4); EQUALS]
  | [a] => [char (a / 4); char ((a mod 4) * 16); EQUALS; EQUALS]
  | [] => []
  end.

(** [btoa]: [None] is the InvalidCharacterError thrown when a code
    unit is above 0xFF. *)
Definition btoa (data : jsstring) : option jsstring :=
  if forallb octet_range data then Some (encode data) else None.

(** Four sextets give three octets; a last group of two or three
    sextets gives one or two octets, its spare low bits dropped. *)
Fixpoint octets (ds : list Z) : list Z :=
  match ds with
  | a :: b :: c :: d :: r =>
      (a * 4 + b / 16) :: ((b mod 16) * 16 + c / 4)
        :: ((c mod 4) * 64 + d) :: octets r
  | [a; b; c] => [a * 4 + b / 16; (b mod 16) * 16 + c / 4]
  | [a; b] => [a * 4 + b / 16]
  | _ => []
  end.

Definition is_ascii_whitespace (c : Z) : bool :=
  (c =? 9) || (c =? 10) || (c =? 12) || (c =? 13) || (c =? 32).

(** Removes one or two [=] at the end of the data. *)
Definition strip_padding (data : jsstring) : jsstring :=
  match rev data with
  | a :: r =>
      if a =? EQUALS then
        match r with
        | b :: r' => if b =? EQUALS then rev r' else rev r
        | [] => []
        end
      else data
  | [] => data
  end.

Definition length_mod4 (data : jsstring) : Z :=
  Z.of_nat (length data) mod 4.

(** [atob], the forgiving base64 decoder: [None] is the
    InvalidCharacterError it throws. *)
Definition atob (data : jsstring) : option jsstring :=
  let data := filter (fun c => negb (is_ascii_whitespace c)) data in
  let data := if length_mod4 data =? 0 then strip_padding data else data in
  if length_mod4 data =? 1 then None
  else if forallb is_base64_char data then Some (octets (map sextet data))
  else None.

End Base64.

(** ** The codec of [src/index.jsx] *)

(** [String.prototype.replace] with the global pattern
    [/%([0-9A-F]{2})/g] and the replacer [toSolidBytes], which returns
    [String.fromCharCode('0x' + p1)]: every escape becomes the single
    code unit it denotes; a [%] not followed by two upper case digits
    is no match and is copied. *)
Fixpoint toSolidBytes (s : jsstring) : jsstring :=
  match s with
  | [] => []
  | c :: rest =>
      if c =? PERCENT then
        match rest with
        | h :: l :: r =>
            if Hex.is_upper_hex h && Hex.is_upper_hex l then
              match Hex.octet h l with
              | Some b => b :: toSolidBytes r
              | None => c :: toSolidBytes rest
              end
            else c :: toSolidBytes rest
        | _ => c :: toSolidBytes rest
        end
      else c :: toSolidBytes rest
  end.

(** [replace(/x/g, y)] for a single character [x]. *)
Definition replace_char (x y : Z) (s : jsstring) : jsstring :=
  map (fun c => if c =? x then y else c) s.

(** [replace(/=+$/, '')]: the leftmost match of [=+$] is the whole run
    of [=] that ends the string. *)
Fixpoint strip_trailing_equals (s : jsstring) : jsstring :=
  match s with
  | [] => []
  | c :: r =>
      if (c =? EQUALS) && forallb (fun d => d =? EQUALS) r then []
      else c :: strip_trailing_equals r
  end.

(** [encodeText]: [None] is the [null] returned from the [catch]. *)
Definition encodeText (str : jsstring) : option jsstring :=
  match URI.encodeURIComponent str with
  | None => None
  | Some escaped =>
      match Base64.btoa (toSolidBytes escaped) with
      | None => None
      | Some b64 =>
          Some (strip_trailing_equals
                  (replace_char SLASH UNDERSCORE
                     (replace_char PLUS MINUS b64)))
      end
  end.

(** [Number.prototype.toString(16)] of a code unit. *)
Definition toString16 (c : Z) : jsstring :=
  if c <? 16 then [Hex.lower c]
  else if c <? 256 then [Hex.lower (c / 16); Hex.lower (c mod 16)]
  else if c <? 4096 then
    [Hex.lower (c / 256); Hex.lower ((c / 16) mod 16); Hex.lower (c mod 16)]
  else
    [Hex.lower (c / 4096); Hex.lower ((c / 256) mod 16);
     Hex.lower ((c / 16) mod 16); Hex.lower (c mod 16)].

(** [slice(-2)]: the last two code units. *)
Definition slice_last2 (s : jsstring) : jsstring :=
  skipn (length s - 2) s.

(** The callback of [map] in [decodeText]:
    ['%' + ('00' + c.charCodeAt(0).toString(16)).slice(-2)]. *)
Definition percent_hex (c : Z) : jsstring :=
  PERCENT :: slice_last2 (js "00" ++ toString16 c).

(** ['='.repeat((4 - base64.length % 4) % 4)] *)
Definition padding (base64 : jsstring) : jsstring :=
  repeat EQUALS (Z.to_nat ((4 - Z.of_nat (length base64) mod 4) mod 4)).

(** [decodeText]: [None] is the [null] returned from the [catch]. *)
Definition decodeText (str : jsstring) : option jsstring :=
  let base64 := replace_char UNDERSCORE SLASH (replace_char MINUS PLUS str) in
  match Base64.atob (base64 ++ padding base64) with
  | None => None
  | Some bin => URI.decodeURIComponent (flat_map percent_hex bin)
  end.

(** ** Values and JSON (ECMA-262, 25.5) *)

(** The values that [JSON.parse] builds and that the [history] state
    holds.  A number is kept as the numeric literal that denotes it: the
    source stores numbers and writes them back, it never computes on
    them. *)
#[warnings="-register-all"]
Inductive value :=
| VNull
| VBool (b : bool)
| VNum (literal : jsstring)
| VStr (s : jsstring)
| VArr (items : list value)
| VObj (fields : list (jsstring * value)).

(** Exceptions thrown by the built-ins that the handlers do not catch. *)
Inductive exception := SyntaxError | TypeError.

(** Outcome of a parser: a result with the input left over, a syntax
    error, or recursion budget spent (which [JSON.parse] below rules out
    by the budget it gives). *)
Inductive parsed (A : Type) :=
| Parsed (a : A) (rest : jsstring)
| Malformed
| Exhausted.
Arguments Parsed {A} a rest.
Arguments Malformed {A}.
Arguments Exhausted {A}.

Definition parsed_map {A B} (f : A -> B) (p : parsed A) : parsed B :=
  match p with
  | Parsed a r => Parsed (f a) r
  | Malformed => Malformed
  | Exhausted => Exhausted
  end.

Module JSON.

Definition is_whitespace (c : Z) : bool :=
  (c =? 9) || (c =? 10) || (c =? 13) || (c =? 32).

Fixpoint skip_whitespace (s : jsstring) : jsstring :=
  match s with
  | c :: r => if is_whitespace c then skip_whitespace r else s
  | [] => []
  end.

(** The character a one-letter escape stands for. *)
Definition simple_escape (e : Z) : option Z :=
  if e =? 34 then Some 34   (* quotation mark *)
  else if e =? 92 then Some 92   (* reverse solidus *)
  else if e =? 47 then Some 47   (* solidus *)
  else if e =? 98 then Some 8   (* b: backspace *)
  else if e =? 102 then Some 12   (* f: form feed *)
  else if e =? 110 then Some 10   (* n: line feed *)
  else if e =? 114 then Some 13   (* r: carriage return *)
  else if e =? 116 then Some 9   (* t: tab *)
  else None.

Definition hex4 (a b c d : Z) : option Z :=
  match Hex.octet a b, Hex.octet c d with
  | Some hi, Some lo => Some (256 * hi + lo)
  | _, _ => None
  end.

(** The characters of a string literal after its opening quote. *)
Fixpoint string_body (s : jsstring) : parsed jsstring :=
  match s with
  | [] => Malformed
  | c :: r =>
      if c =? 34 then Parsed [] r
      else if c <? 32 then Malformed
      else if c =? 92 then
        match r with
        | e :: r1 =>
            if e =? 117 then
              match r1 with
              | a :: b :: c' :: d :: r2 =>
                  match hex4 a b c' d with
                  | Some u => parsed_map (cons u) (string_body r2)
                  | None => Malformed
                  end
              | _ => Malformed
              end
            else
              match simple_escape e with
              | Some u => parsed_map (cons u) (string_body r1)
              | None => Malformed
              end
        | [] => Malformed
        end
      else parsed_map (cons c) (string_body r)
  end.

Fixpoint digits (s : jsstring) : jsstring * jsstring :=
  match s with
  | c :: r =>
      if is_digit c then let (ds, r') := digits r in (c :: ds, r')
      else ([], s)
  | [] => ([], [])
  end.

(** A number literal: an optional minus sign; an integer part that is
    [0] or starts with a non-zero digit; an optional fraction; an
    optional exponent.  Each part gives its characters and the input
    left over, or [None] where the grammar is broken. *)
Definition sign (plus : bool) (s : jsstring) : jsstring * jsstring :=
  match s with
  | c :: r =>
      if (c =? MINUS) || (plus && (c =? PLUS)) then ([c], r) else ([], s)
  | [] => ([], s)
  end.

Definition integer_part (s : jsstring) : option (jsstring * jsstring) :=
  let (ds, r) := digits s in
  match ds with
  | [] => None
  | d :: ds' => if d =? 48 then Some ([d], ds' ++ r) else Some (ds, r)
  end.

Definition fraction (s : jsstring) : option (jsstring * jsstring) :=
  match s with
  | c :: r =>
      if c =? 46 then
        let (fs, r') := digits r in
        match fs with
        | [] => None
        | _ :: _ => Some (c :: fs, r')
        end
      else Some ([], s)
  | [] => Some ([], s)
  end.

Definition exponent (s : jsstring) : option (jsstring * jsstring) :=
  match s with
  | e :: r =>
      if (e =? 101) || (e =? 69) then
        let (sg, r1) := sign true r in
        let (es, r2) := digits r1 in
        match es with
        | [] => None
        | _ :: _ => Some (e :: sg ++ es, r2)
        end
      else Some ([], s)
  | [] => Some ([], s)
  end.

Definition number (s : jsstring) : parsed jsstring :=
  let (sg, s1) := sign false s in
  match integer_part s1 with
  | None => Malformed
  | Some (int, s2) =>
      match fraction s2 with
      | None => Malformed
      | Some (frac, s3) =>
          match exponent s3 with
          | None => Malformed
          | Some (ex, s4) => Parsed (sg ++ int ++ frac ++ ex) s4
          end
      end
  end.

(** A keyword ([null], [true], [false]) at the head of the input. *)
Fixpoint keyword (k s : jsstring) : option jsstring :=
  match k, s with
  | [], _ => Some s
  | a :: k', b :: s' => if a =? b then keyword k' s' else None
  | _ :: _, [] => None
  end.

(** JSON value, array elements after a first position and object
    members, by recursive descent.  [n] bounds the depth of the
    recursion. *)
Fixpoint parse_value (n : nat) (s : jsstring) {struct n}
  : parsed value :=
  match n with
  | O => Exhausted
  | S n' =>
      match skip_whitespace s with
      | [] => Malformed
      | c :: r =>
          if c =? 123 then
            match skip_whitespace r with
            | c' :: r' =>
                if c' =? 125 then Parsed (VObj []) r'
                else parsed_map VObj (parse_members n' (c' :: r'))
            | [] => Malformed
            end
          else if c =? 91 then
            match skip_whitespace r with
            | c' :: r' =>
                if c' =? 93 then Parsed (VArr []) r'
                else parsed_map VArr (parse_elements n' (c' :: r'))
            | [] => Malformed
            end
          else if c =? 34 then parsed_map VStr (string_body r)
          else if (c =? MINUS) || is_digit c then
            parsed_map VNum (number (c :: r))
          else
            match keyword (js "null") (c :: r),
                  keyword (js "true") (c :: r),
                  keyword (js "false") (c :: r) with
            | Some r', _, _ => Parsed VNull r'
            | _, Some r', _ => Parsed (VBool true) r'
            | _, _, Some r' => Parsed (VBool false) r'
            | _, _, _ => Malformed
            end
      end
  end
with parse_elements (n : nat) (s : jsstring) {struct n}
  : parsed (list value) :=
  match n with
  | O => Exhausted
  | S n' =>
      match parse_value n' s with
      | Parsed v r =>
          match skip_whitespace r with
          | c :: r' =>
              if c =? 44 then parsed_map (cons v) (parse_elements n' r')
              else if c =? 93 then Parsed [v] r'
              else Malformed
          | [] => Malformed
          end
      | Malformed => Malformed
      | Exhausted => Exhausted
      end
  end
with parse_members (n : nat) (s : jsstring) {struct n}
  : parsed (list (jsstring * value)) :=
  match n with
  | O => Exhausted
  | S n' =>
      match skip_whitespace s with
      | q :: r0 =>
          if q =? 34 then
            match string_body r0 with
            | Parsed k r1 =>
                match skip_whitespace r1 with
                | colon :: r2 =>
                    if colon =? 58 then
                      match parse_value n' r2 with
                      | Parsed v r3 =>
                          match skip_whitespace r3 with
                          | c :: r4 =>
                              if c =? 44 then
                                parsed_map (cons (k, v))
                                           (parse_members n' r4)
                              else if c =? 125 then Parsed [(k, v)] r4
                              else Malformed
                          | [] => Malformed
                          end
                      | Malformed => Malformed
                      | Exhausted => Exhausted
                      end
                    else Malformed
                | [] => Malformed
                end
            | Malformed => Malformed
            | Exhausted => Exhausted
            end
          else Malformed
      | [] => Malformed
      end
  end.

(** Every level of the descent consumes a character, so twice the
    length of the text is budget enough. *)
Definition budget (text : jsstring) : nat := 2 * length text + 2.

(** [JSON.parse(text)] without reviver: one value, then only white
    space. *)
Definition parse (text : jsstring) : parsed value :=
  match parse_value (budget text) text with
  | Parsed v r =>
      match skip_whitespace r with
      | [] => Parsed v []
      | _ :: _ => Malformed
      end
  | Malformed => Malformed
  | Exhausted => Exhausted
  end.

Definition hex4_lower (c : Z) : jsstring :=
  [Hex.lower (c / 4096); Hex.lower ((c / 256) mod 16);
   Hex.lower ((c / 16) mod 16); Hex.lower (c mod 16)].

Definition unicode_escape (c : Z) : jsstring :=
  92 :: 117 :: hex4_lower c.

(** QuoteJSONString, without the enclosing quotes. *)
Fixpoint quote_body (s : jsstring) : jsstring :=
  match s with
  | [] => []
  | c :: r =>
      if c =? 8 then js "\b" ++ quote_body r
      else if c =? 9 then js "\t" ++ quote_body r
      else if c =? 10 then js "\n" ++ quote_body r
      else if c =? 12 then js "\f" ++ quote_body r
      else if c =? 13 then js "\r" ++ quote_body r
      else if c =? 34 then 92 :: 34 :: quote_body r
      else if c =? 92 then 92 :: 92 :: quote_body r
      else if c <? 32 then unicode_escape c ++ quote_body r
      else if is_leading_surrogate c then
        match r with
        | d :: r' =>
            if is_trailing_surrogate d then c :: d :: quote_body r'
            else unicode_escape c ++ quote_body r
        | [] => unicode_escape c
        end
      else if is_trailing_surrogate c then unicode_escape c ++ quote_body r
      else c :: quote_body r
  end.

Definition quote (s : jsstring) : jsstring := 34 :: quote_body s ++ [34].

Fixpoint join (parts : list jsstring) : jsstring :=
  match parts with
  | [] => []
  | [p] => p
  | p :: ps => p ++ 44 :: join ps
  end.

(** [JSON.stringify(value)] without replacer and indentation. *)
Fixpoint stringify (v : value) : jsstring :=
  match v with
  | VNull => js "null"
  | VBool true => js "true"
  | VBool false => js "false"
  | VNum literal => literal
  | VStr s => quote s
  | VArr items => 91 :: join (map stringify items) ++ [93]
  | VObj fields =>
      123 :: join (map (fun kv => quote (fst kv) ++ 58 :: stringify (snd kv))
                       fields) ++ [125]
  end.

End JSON.

(** ** The application state *)

Inductive Mode := create | view.

Record Toast := { message : jsstring; type : jsstring }.

(** The state of [App] (its [useState] cells) together with the parts
    of the browser the handlers read and write: the fragment of
    [window.location], its origin and path, [localStorage], and the
    number of [hashchange] events that the browser has queued for the
    listener of line 103 and not yet dispatched. *)
Record World := {
  text : jsstring;
  mode : Mode;
  darkMode : bool;
  generatedLink : jsstring;
  toast : option Toast;
  history : value;
  showHistory : bool;
  showQR : bool;
  fragment : jsstring;
  origin : jsstring;
  pathname : jsstring;
  localStorage : list (jsstring * jsstring);
  hashchanges : nat
}.

(** The state the [useState] initialisers give, in a browser [w]. *)
Definition initial (frag org path : jsstring)
    (store : list (jsstring * jsstring)) : World :=
  {| text := []; mode := create; darkMode := true; generatedLink := [];
     toast := None; history := VArr []; showHistory := false;
     showQR := false; fragment := frag; origin := org; pathname := path;
     localStorage := store; hashchanges := 0 |}.

Definition setText (v : jsstring) (w : World) : World :=
  {| text := v; mode := mode w; darkMode := darkMode w;
     generatedLink := generatedLink w; toast := toast w;
     history := history w; showHistory := showHistory w;
     showQR := showQR w; fragment := fragment w; origin := origin w;
     pathname := pathname w; localStorage := localStorage w;
     hashchanges := hashchanges w |}.

Definition setMode (v : Mode) (w : World) : World :=
  {| text := text w; mode := v; darkMode := darkMode w;
     generatedLink := generatedLink w; toast := toast w;
     history := history w; showHistory := showHistory w;
     showQR := showQR w; fragment := fragment w; origin := origin w;
     pathname := pathname w; localStorage := localStorage w;
     hashchanges := hashchanges w |}.

Definition setDarkMode (v : bool) (w : World) : World :=
  {| text := text w; mode := mode w; darkMode := v;
     generatedLink := generatedLink w; toast := toast w;
     history := history w; showHistory := showHistory w;
     showQR := showQR w; fragment := fragment w; origin := origin w;
     pathname := pathname w; localStorage := localStorage w;
     hashchanges := hashchanges w |}.

Definition setGeneratedLink (v : jsstring) (w : World) : World :=
  {| text := text w; mode := mode w; darkMode := darkMode w;
     generatedLink := v; toast := toast w;
     history := history w; showHistory := showHistory w;
     showQR := showQR w; fragment := fragment w; origin := origin w;
     pathname := pathname w; localStorage := localStorage w;
     hashchanges := hashchanges w |}.

Definition setToast (v : option Toast) (w : World) : World :=
  {| text := text w; mode := mode w; darkMode := darkMode w;
     generatedLink := generatedLink w; toast := v;
     history := history w; showHistory := showHistory w;
     showQR := showQR w; fragment := fragment w; origin := origin w;
     pathname := pathname w; localStorage := localStorage w;
     hashchanges := hashchanges w |}.

Definition setHistory (v : value) (w : World) : World :=
  {| text := text w; mode := mode w; darkMode := darkMode w;
     generatedLink := generatedLink w; toast := toast w;
     history := v; showHistory := showHistory w;
     showQR := showQR w; fragment := fragment w; origin := origin w;
     pathname := pathname w; localStorage := localStorage w;
     hashchanges := hashchanges w |}.

(** The browser moves to a URL with the fragment [f] (a link is
    opened, the address is edited). *)
Definition set_fragment (f : jsstring) (w : World) : World :=
  {| text := text w; mode := mode w; darkMode := darkMode w;
     generatedLink := generatedLink w; toast := toast w;
     history := history w; showHistory := showHistory w;
     showQR := showQR w; fragment := f; origin := origin w;
     pathname := pathname w; localStorage := localStorage w;
     hashchanges := hashchanges w |}.

Definition jsstring_eqb (a b : jsstring) : bool :=
  if list_eq_dec Z.eq_dec a b then true else false.

(** The queue of [hashchange] events is [n] events long. *)
Definition set_hashchanges (n : nat) (w : World) : World :=
  {| text := text w; mode := mode w; darkMode := darkMode w;
     generatedLink := generatedLink w; toast := toast w;
     history := history w; showHistory := showHistory w;
     showQR := showQR w; fragment := fragment w; origin := origin w;
     pathname := pathname w; localStorage := localStorage w;
     hashchanges := n |}.

(** [window.location.hash = v] for a [v] without characters that the
    URL parser would escape (the source assigns only ['']): a leading
    [#] is dropped, the rest is the new fragment.  If that is the
    fragment the address has already (none counts as empty) nothing
    happens; otherwise the browser navigates to the new fragment, and
    the navigation queues a [hashchange] event. *)
Definition set_location_hash (v : jsstring) (w : World) : World :=
  let input :=
    match v with
    | c :: r => if c =? HASH then r else v
    | [] => []
    end in
  if jsstring_eqb input (fragment w) then w
  else set_hashchanges (S (hashchanges w)) (set_fragment input w).

(** The getter of [window.location.hash]: empty for an empty fragment,
    else [#] and the fragment. *)
Definition location_hash (w : World) : jsstring :=
  match fragment w with
  | [] => []
  | f => HASH :: f
  end.

(** [substring(1)] *)
Definition substring_from1 (s : jsstring) : jsstring := skipn 1 s.

(** [localStorage.getItem(key)]: [None] is [null]. *)
Fixpoint getItem (key : jsstring) (store : list (jsstring * jsstring))
  : option jsstring :=
  match store with
  | [] => None
  | (k, v) :: r => if jsstring_eqb k key then Some v else getItem key r
  end.

(** [localStorage.setItem(key, v)] on the stored pairs. *)
Fixpoint setItem (key v : jsstring) (store : list (jsstring * jsstring))
  : list (jsstring * jsstring) :=
  match store with
  | [] => [(key, v)]
  | (k, v') :: r =>
      if jsstring_eqb k key then (k, v) :: r else (k, v') :: setItem key v r
  end.

Definition localStorage_setItem (key v : jsstring) (w : World) : World :=
  {| text := text w; mode := mode w; darkMode := darkMode w;
     generatedLink := generatedLink w; toast := toast w;
     history := history w; showHistory := showHistory w;
     showQR := showQR w; fragment := fragment w; origin := origin w;
     pathname := pathname w;
     localStorage := setItem key v (localStorage w);
     hashchanges := hashchanges w |}.

(** [showToast(message, type = 'success')] *)
Definition showToast (msg ty : jsstring) (w : World) : World :=
  setToast (Some {| message := msg; type := ty |}) w.

(** ** The link router *)

(** [handleHashChange], lines 84-100.  An empty string is falsy, so
    [if (hash)] asks for a non-empty fragment and [if (decoded)] for a
    decoded text that is neither [null] nor empty. *)
Definition handleHashChange (w : World) : World :=
  let hash := substring_from1 (location_hash w) in
  match hash with
  | _ :: _ =>
      match decodeText hash with
      | Some (c :: d) => setMode view (setText (c :: d) w)
      | _ =>
          setMode create
            (set_location_hash []
               (showToast (js "Invalid or corrupted link") (js "error") w))
      end
  | [] => setText [] (setMode create w)
  end.

(** The event loop of the mounted component, as far as [hashchange]
    goes: the browser takes one queued event and dispatches it, and
    the listener registered at line 103, [handleHashChange], runs. *)
Definition dispatch (w : World) : World :=
  match hashchanges w with
  | O => w
  | S n => handleHashChange (set_hashchanges n w)
  end.

Fixpoint event_loop (fuel : nat) (w : World) : World :=
  match fuel with
  | O => w
  | S k =>
      match hashchanges w with
      | O => w
      | S _ => event_loop k (dispatch w)
      end
  end.

(** The queued events are dispatched until none is left.  A run of
    the listener queues an event only when it clears a fragment, and a
    cleared fragment is not cleared again, so one run more than there
    are events is enough (see [settle_quiet]). *)
Definition settle (w : World) : World := event_loop (S (hashchanges w)) w.

(** ** Link generation and the history store *)

(** The [onChange] handler of the text area, line 262: the text follows
    the input in [create] mode only. *)
Definition onChange (v : jsstring) (w : World) : World :=
  match mode w with
  | create => setText v w
  | view => w
  end.

(** White space and line terminators, as [String.prototype.trim]
    removes them. *)
Definition is_whitespace (c : Z) : bool :=
  between 9 13 c || (c =? 32) || (c =? 160) || (c =? 5760)
  || between 8192 8202 c || (c =? 8232) || (c =? 8233) || (c =? 8239)
  || (c =? 8287) || (c =? 12288) || (c =? 65279).

Fixpoint trimStart (s : jsstring) : jsstring :=
  match s with
  | c :: r => if is_whitespace c then trimStart r else s
  | [] => []
  end.

Definition trimEnd (s : jsstring) : jsstring := rev (trimStart (rev s)).

Definition trim (s : jsstring) : jsstring := trimEnd (trimStart s).

(** Truthiness of a string: non-empty. *)
Definition truthy (s : jsstring) : bool :=
  match s with
  | [] => false
  | _ :: _ => true
  end.

(** Decimal digits of an integer, as a template or [JSON.stringify]
    prints an integral number. *)
Fixpoint uint_digits (u : Decimal.uint) : jsstring :=
  match u with
  | Decimal.Nil => []
  | Decimal.D0 r => 48 :: uint_digits r
  | Decimal.D1 r => 49 :: uint_digits r
  | Decimal.D2 r => 50 :: uint_digits r
  | Decimal.D3 r => 51 :: uint_digits r
  | Decimal.D4 r => 52 :: uint_digits r
  | Decimal.D5 r => 53 :: uint_digits r
  | Decimal.D6 r => 54 :: uint_digits r
  | Decimal.D7 r => 55 :: uint_digits r
  | Decimal.D8 r => 56 :: uint_digits r
  | Decimal.D9 r => 57 :: uint_digits r
  end.

Definition decimal (z : Z) : jsstring :=
  match Z.to_int z with
  | Decimal.Pos u => uint_digits u
  | Decimal.Neg u => MINUS :: uint_digits u
  end.

(** The text a template literal puts for [encoded]: the token, or
    ["null"] for [null]. *)
Definition template_string (encoded : option jsstring) : jsstring :=
  match encoded with
  | Some token => token
  | None => js "null"
  end.

(** [text.substring(0, 30) + (text.length > 30 ? '...' : '')] *)
Definition preview_of (t : jsstring) : jsstring :=
  firstn 30 t ++ (if (30 <? length t)%nat then js "..." else []).

(** [newHistoryItem], lines 131-136; [now] is [Date.now()] and [today]
    is [new Date().toLocaleDateString()]. *)
Definition newHistoryItem (now : Z) (today t link : jsstring) : value :=
  VObj [(js "id", VNum (decimal now));
        (js "preview", VStr (preview_of t));
        (js "date", VStr today);
        (js "link", VStr link)].

(** The code points of a string, each as a string: what iterating a
    string yields. *)
Fixpoint code_points (s : jsstring) : list jsstring :=
  match s with
  | [] => []
  | c :: r =>
      if is_leading_surrogate c then
        match r with
        | d :: r' =>
            if is_trailing_surrogate d then [c; d] :: code_points r'
            else [c] :: code_points r
        | [] => [[c]]
        end
      else [c] :: code_points r
  end.

(** The elements the spread [...v] yields: those of an array, the code
    points of a string; any other value is not iterable. *)
Definition spread (v : value) : option (list value) :=
  match v with
  | VArr items => Some items
  | VStr s => Some (map VStr (code_points s))
  | _ => None
  end.

(** [[entry, ...history].slice(0, 5)], line 138. *)
Definition append (entry : value) (items : list value) : list value :=
  firstn 5 (entry :: items).

Definition history_key : jsstring := js "textshare_history".

(** What running a handler comes to: it returns, or it throws with
    the state updates made so far. *)
Inductive outcome :=
| Returned (w : World)
| Thrown (e : exception) (w : World).

Definition world_of (o : outcome) : World :=
  match o with
  | Returned w => w
  | Thrown _ w => w
  end.

(** [handleGenerate], lines 120-144. *)
Definition handleGenerate (now : Z) (today : jsstring) (w : World)
  : outcome :=
  if negb (truthy (trim (text w))) then
    Returned (showToast (js "Please enter some text first!") (js "error") w)
  else
    let encoded := encodeText (text w) in
    let link :=
      origin w ++ pathname w ++ HASH :: template_string encoded in
    let w1 := setGeneratedLink link w in
    let item := newHistoryItem now today (text w) link in
    match spread (history w) with
    | None => Thrown TypeError w1
    | Some items =>
        let updatedHistory := VArr (append item items) in
        let w2 := setHistory updatedHistory w1 in
        let w3 :=
          localStorage_setItem history_key
            (JSON.stringify updatedHistory) w2 in
        Returned
          (showToast (js "Link generated successfully!") (js "success") w3)
    end.

(** The history load of the start-up effect, lines 80-81: a missing or
    empty item leaves the state alone, otherwise the item is parsed and
    whatever value it denotes becomes [history]; a text that is no JSON
    makes [JSON.parse] throw, and nothing catches it.  ([JSON.parse]
    never spends its budget, see [parse_not_exhausted].) *)
Definition loadHistory (w : World) : outcome :=
  match getItem history_key (localStorage w) with
  | Some (c :: s) =>
      match JSON.parse (c :: s) with
      | Parsed v _ => Returned (setHistory v w)
      | _ => Thrown SyntaxError w
      end
  | _ => Returned w
  end.

(** The start-up effect, lines 73-105: the theme from the media query
    ([prefers_dark]), the history load, then the first run of
    [handleHashChange]. *)
Definition startup (prefers_dark : bool) (w : World) : outcome :=
  let w := if prefers_dark then setDarkMode true w else w in
  match loadHistory w with
  | Returned w' => Returned (handleHashChange w')
  | Thrown e w' => Thrown e w'
  end.

(** The component once it is mounted: the start-up effect has returned
    (the listener is registered, line 103) and the events that its run
    of [handleHashChange] has queued have been dispatched. *)
Definition launch (prefers_dark : bool) (w : World) : outcome :=
  match startup prefers_dark w with
  | Returned w' => Returned (settle w')
  | Thrown e w' => Thrown e w'
  end.

(** ** Vocabulary of the statements *)

(** The token alphabet [[A-Za-z0-9_-]] of the link format. *)
Definition is_token_char (c : Z) : bool :=
  is_alnum c || (c =? UNDERSCORE) || (c =? MINUS).

Definition is_token (s : jsstring) : bool := forallb is_token_char s.

(** The UTF-8 octets of a string, surrogate pairs read as one code
    point. *)
Fixpoint utf8_of (s : jsstring) : list Z :=
  match s with
  | [] => []
  | c :: r =>
      if is_leading_surrogate c then
        match r with
        | d :: r' =>
            Unicode.utf8 (Unicode.pair_to_code_point c d) ++ utf8_of r'
        | [] => Unicode.utf8 c
        end
      else Unicode.utf8 c ++ utf8_of r
  end.

(** The sextets of an octet sequence and the number of [=] that pad
    its base64 text. *)
Fixpoint sextets (bs : list Z) : list Z :=
  match bs with
  | a :: b :: c :: r =>
      a / 4 :: (a mod 4) * 16 + b / 16 :: (b mod 16) * 4 + c / 64
        :: c mod 64 :: sextets r
  | [a; b] => [a / 4; (a mod 4) * 16 + b / 16; (b mod 16) * 4]
  | [a] => [a / 4; (a mod 4) * 16]
  | [] => []
  end.

Fixpoint pad_count (bs : list Z) : nat :=
  match bs with
  | _ :: _ :: _ :: r => pad_count r
  | [_; _] => 1
  | [_] => 2
  | [] => 0
  end.

(** The two replacements of [encodeText] and of [decodeText], each as
    one function on characters. *)
Definition url_safe (c : Z) : Z :=
  if c =? PLUS then MINUS else if c =? SLASH then UNDERSCORE else c.

Definition url_unsafe (c : Z) : Z :=
  if c =? MINUS then PLUS else if c =? UNDERSCORE then SLASH else c.

(** The characters of the token of an octet sequence: the URL-safe
    character of each of its sextets. *)
Definition token_of (bs : list Z) : jsstring :=
  map url_safe (map Base64.char (sextets bs)).

(** The octets that a token denotes to [decodeText]: what [atob]
    returns for the token with the replacements undone and the padding
    added. *)
Definition token_octets (token : jsstring) : option (list Z) :=
  let base64 :=
    replace_char UNDERSCORE SLASH (replace_char MINUS PLUS token) in
  Base64.atob (base64 ++ padding base64).


(** The router run on a fragment value: the browser shows a URL with
    the fragment [f], [handleHashChange] runs, and the events that the
    run itself has queued are dispatched. *)
Definition route (f : jsstring) (w : World) : World :=
  settle (handleHashChange (set_fragment f w)).

(** One use of the generator: the user enters [t], then activates
    "Generate" at time [now] on the day [today]. *)
Record Input := { entered : jsstring; now : Z; today : jsstring }.

Definition generate (i : Input) (w : World) : World :=
  world_of (handleGenerate (now i) (today i) (onChange (entered i) w)).

Definition generate_all (inputs : list Input) (w : World) : World :=
  fold_left (fun w i => generate i w) inputs w.

(** The link and the history entry that [handleGenerate] builds for an
    input in the browser of [w]. *)
Definition link_of (w : World) (t : jsstring) : jsstring :=
  origin w ++ pathname w ++ HASH :: template_string (encodeText t).

Definition entry_of (w : World) (i : Input) : value :=
  newHistoryItem (now i) (today i) (entered i) (link_of w (entered i)).

(** A text with something other than white space in it. *)
Definition nonblank (t : jsstring) : bool := truthy (trim t).

(** The sample text of the statements: ASCII with [+], [/] and [=], a
    combining acute accent after [e], two CJK characters and an emoji
    (a surrogate pair). *)
Definition sample : jsstring :=
  js "a+b/c==" ++ [101; 769] ++ [19990; 30028] ++ [55356; 57225].

(** Seven texts, entered one after the other. *)
Definition seven_inputs : list Input :=
  map (fun k => {| entered := js "note " ++ [48 + k];
                   now := 1730000000000 + k;
                   today := js "11/1/2026" |})
      [1; 2; 3; 4; 5; 6; 7].

(** A parser outcome that is no exhaustion and whose left-over input is
    no longer than [s]. *)
Definition within {A} (s : jsstring) (p : parsed A) : Prop :=
  match p with
  | Parsed _ r => (length r <= length s)%nat
  | Malformed => True
  | Exhausted => False
  end.

(** ** The rest of [App] *)

Definition setShowHistory (v : bool) (w : World) : World :=
  {| text := text w; mode := mode w; darkMode := darkMode w;
     generatedLink := generatedLink w; toast := toast w;
     history := history w; showHistory := v;
     showQR := showQR w; fragment := fragment w; origin := origin w;
     pathname := pathname w; localStorage := localStorage w;
     hashchanges := hashchanges w |}.

Definition setShowQR (v : bool) (w : World) : World :=
  {| text := text w; mode := mode w; darkMode := darkMode w;
     generatedLink := generatedLink w; toast := toast w;
     history := history w; showHistory := showHistory w;
     showQR := v; fragment := fragment w; origin := origin w;
     pathname := pathname w; localStorage := localStorage w;
     hashchanges := hashchanges w |}.

(** [resetApp], lines 154-160.  [pushState] puts the path and the
    search in the address bar: the fragment goes, and no hashchange
    event is fired for it. *)
Definition resetApp (w : World) : World :=
  set_fragment []
    (setShowQR false (setMode create (setGeneratedLink [] (setText [] w)))).

(** [split(/\s+/)]: the pieces of a string between its runs of white
    space ([\s] is the white space of [trim]).  [piece] is the piece
    being read, backwards; [in_run] tells that the last character was
    white space.  The empty string gives one empty piece; white space
    at either end gives an empty piece there. *)
Fixpoint split_from (piece : jsstring) (in_run : bool) (s : jsstring)
  : list jsstring :=
  match s with
  | [] => [rev piece]
  | c :: r =>
      if is_whitespace c then
        if in_run then split_from piece true r
        else rev piece :: split_from [] true r
      else split_from (c :: piece) false r
  end.

Definition split_whitespace (s : jsstring) : list jsstring :=
  split_from [] false s.

(** [Math.ceil(a / b)] for integers [a] and [b > 0] of the size of a
    string length: the quotient is exact in a double or at least
    [1 / b] away from the next integer, so the ceiling is that of the
    rational quotient. *)
Definition ceil_div (a b : Z) : Z := - ((- a) / b).

(** [calculateReadingTime], lines 31-36. *)
Definition calculateReadingTime (t : jsstring) : jsstring :=
  let wpm := 225 in
  let words := Z.of_nat (length (split_whitespace (trim t))) in
  let time := ceil_div words wpm in
  decimal time ++ js " min read".

(** [wordCount] and [charCount], lines 162-163. *)
Definition wordCount (t : jsstring) : Z :=
  match trim t with
  | [] => 0
  | _ :: _ => Z.of_nat (length (split_whitespace (trim t)))
  end.

Definition charCount (t : jsstring) : Z := Z.of_nat (length t).

(** The [src] of the QR image, line 340, which the render computes
    when [showQR] is set, a link is there and the mode is [create]:
    [None] is the URIError of [encodeURIComponent], thrown in the
    render.  Both branches of the colour are ['000000']. *)
Definition qrSrc (w : World) : option jsstring :=
  match URI.encodeURIComponent (generatedLink w) with
  | Some data =>
      Some (js "https://api.qrserver.com/v1/create-qr-code/?size=200x200&data="
              ++ data ++ js "&color="
              ++ (if darkMode w then js "000000" else js "000000"))
  | None => None
  end.

(** The two ways in which the promise of [copyToClipboard], lines
    146-152, is settled: the text was written, or it was not. *)
Definition copied (label : jsstring) (w : World) : World :=
  showToast (label ++ js " copied to clipboard!") (js "success") w.

Definition copy_failed (w : World) : World :=
  showToast (js "Failed to copy") (js "error") w.

(** What the user and the browser can do to the running component.
    A control acts only while it is rendered and enabled: "Generate"
    and "Clear" in [create] mode on a non-blank text (lines 279-295),
    "Create New" in [view] mode (lines 251-255), the QR switch while a
    link is shown in [create] mode (lines 309, 328), the close button
    of the drawer while the drawer is shown (lines 209-214).  The
    notification is closed by the timer of [Toast] while it is shown
    (lines 40-44, 175); a click on a copy button changes nothing until
    its promise is settled. *)
Inductive Event :=
| HashChange (f : jsstring)
| Change (v : jsstring)
| ClickGenerate (now : Z) (today : jsstring)
| ClickClear
| ClickReset
| ToggleHistory
| CloseHistory
| ToggleTheme
| ToggleQR
| CloseToast
| Copied (label : jsstring)
| CopyFailed.

Definition step (e : Event) (w : World) : World :=
  match e with
  | HashChange f => route f w
  | Change v => onChange v w
  | ClickGenerate now today =>
      match mode w with
      | create =>
          if nonblank (text w) then world_of (handleGenerate now today w)
          else w
      | view => w
      end
  | ClickClear =>
      match mode w with
      | create => if nonblank (text w) then setText [] w else w
      | view => w
      end
  | ClickReset =>
      match mode w with
      | view => resetApp w
      | create => w
      end
  | ToggleHistory => setShowHistory (negb (showHistory w)) w
  | CloseHistory => if showHistory w then setShowHistory false w else w
  | ToggleTheme => setDarkMode (negb (darkMode w)) w
  | ToggleQR =>
      match mode w with
      | create =>
          if truthy (generatedLink w) then setShowQR (negb (showQR w)) w
          else w
      | view => w
      end
  | CloseToast =>
      match toast w with
      | Some _ => setToast None w
      | None => w
      end
  | Copied label => copied label w
  | CopyFailed => copy_failed w
  end.

Definition run (events : list Event) (w : World) : World :=
  fold_left (fun w e => step e w) events w.

(** ** Vocabulary of the further statements *)

(** A list of code units, each in [0, 0xFFFF]: a JavaScript string. *)
Definition is_jsstring (s : jsstring) : bool := forallb code_unit s.

(** The fragment of a URL given as text: what follows the first [#]. *)
Fixpoint url_fragment (url : jsstring) : jsstring :=
  match url with
  | [] => []
  | c :: r => if c =? HASH then r else url_fragment r
  end.

(** The number of words of a text: the places where a character that
    is no white space follows white space or starts the text. *)
Fixpoint word_starts (after_space : bool) (s : jsstring) : nat :=
  match s with
  | [] => 0
  | c :: r =>
      if is_whitespace c then word_starts true r
      else (if after_space then 1 else 0) + word_starts false r
  end.

(** A number literal as [JSON.parse] reads it. *)
Definition is_number_literal (lit : jsstring) : bool :=
  match JSON.number lit with
  | Parsed l [] => jsstring_eqb l lit
  | _ => false
  end.

(** The digits of a text read back as a decimal numeral, and the
    integer that a text of digits with at most a sign in front
    denotes. *)
Fixpoint uint_of_digits (ds : jsstring) : option Decimal.uint :=
  match ds with
  | [] => Some Decimal.Nil
  | d :: r =>
      match uint_of_digits r with
      | Some u =>
          if d =? 48 then Some (Decimal.D0 u)
          else if d =? 49 then Some (Decimal.D1 u)
          else if d =? 50 then Some (Decimal.D2 u)
          else if d =? 51 then Some (Decimal.D3 u)
          else if d =? 52 then Some (Decimal.D4 u)
          else if d =? 53 then Some (Decimal.D5 u)
          else if d =? 54 then Some (Decimal.D6 u)
          else if d =? 55 then Some (Decimal.D7 u)
          else if d =? 56 then Some (Decimal.D8 u)
          else if d =? 57 then Some (Decimal.D9 u)
          else None
      | None => None
      end
  end.

Definition integer_of (lit : jsstring) : option Z :=
  match lit with
  | [] => None
  | c :: r =>
      if c =? MINUS then
        option_map (fun u => Z.of_int (Decimal.Neg u)) (uint_of_digits r)
      else option_map (fun u => Z.of_int (Decimal.Pos u)) (uint_of_digits lit)
  end.

(** The integers that a number holds exactly, one and all: those of
    at most [2^53] in absolute value. *)
Definition is_safe_integer (z : Z) : bool := Z.abs z <=? 9007199254740992.


(** A number literal that [JSON.stringify] writes for the number it
    denotes: the decimal digits of a safe integer, with a sign in
    front of a negative one (no fraction, no exponent, no leading
    zero, no [-0]). *)
Definition is_integer_literal (lit : jsstring) : bool :=
  is_number_literal lit
  && match integer_of lit with
     | Some z => jsstring_eqb lit (decimal z) && is_safe_integer z
     | None => false
     end.

(** Keys that an object lists in the order in which they were set:
    each key once, and none written with digits only (an object lists
    its array indices first). *)
Fixpoint distinct_keys (keys : list jsstring) : bool :=
  match keys with
  | [] => true
  | k :: r => negb (existsb (jsstring_eqb k) r) && distinct_keys r
  end.

Definition plain_key (k : jsstring) : bool := negb (forallb is_digit k).

(** The values that [JSON.stringify] writes so that [JSON.parse] reads
    them back: numbers are safe integers, strings and keys are
    JavaScript strings, and the keys of an object are distinct and
    plain. *)
Fixpoint storable (v : value) : bool :=
  match v with
  | VNull => true
  | VBool _ => true
  | VNum literal => is_integer_literal literal
  | VStr s => is_jsstring s
  | VArr items => forallb storable items
  | VObj fields =>
      forallb (fun kv => is_jsstring (fst kv) && storable (snd kv)) fields
      && distinct_keys (map fst fields) && forallb plain_key (map fst fields)
  end.

(** What follows a value inside a JSON text: nothing, a comma or a
    closing bracket. *)
Definition delimited (rest : jsstring) : bool :=
  match rest with
  | [] => true
  | c :: _ => (c =? 44) || (c =? 93) || (c =? 125)
  end.


(** In [view] mode the text is what [decodeText] gives for the
    fragment, and it is not empty. *)
Definition view_shows_fragment (w : World) : Prop :=
  mode w = view ->
  text w <> [] /\ fragment w <> [] /\ decodeText (fragment w) = Some (text w).

(** The history is a list of at most five entries. *)
Definition history_bounded (w : World) : Prop :=
  exists items, history w = VArr items /\ (length items <= 5)%nat.


(** Whether a scan of [s] that starts inside ([in_run]) or outside a
    run of white space ends inside one. *)
Fixpoint ends_in_run (in_run : bool) (s : jsstring) : bool :=
  match s with
  | [] => in_run
  | c :: r => ends_in_run (is_whitespace c) r
  end.

(** A part of a number read in front of a delimiter. *)
Definition before (rest : jsstring) (p : option (jsstring * jsstring))
  : option (jsstring * jsstring) :=
  option_map (fun lr => (fst lr, snd lr ++ rest)) p.

(** With enough budget the descent reads the text of [v], in front of
    a delimiter, as [v]. *)
Definition reads_back (v : value) : Prop :=
  forall rest, delimited rest = true ->
  exists n, forall m, (n <= m)%nat ->
    JSON.parse_value m (JSON.stringify v ++ rest) = Parsed v rest.

(** The text of a member of an object. *)
Definition member_text (kv : jsstring * value) : jsstring :=
  JSON.quote (fst kv) ++ 58 :: JSON.stringify (snd kv).


(* ================================================================== *)
(** * Part II: properties *)
(* ================================================================== *)

(** Boolean tests on code units are turned into linear arithmetic. *)
Ltac unfold_classes :=
  unfold is_token_char, Base64.is_base64_char, Base64.is_ascii_whitespace,
    URI.unescaped, Hex.is_upper_hex, is_alnum, is_digit, is_upper, is_lower,
    is_leading_surrogate, is_trailing_surrogate, Unicode.is_continuation,
    octet_range, code_unit, between in *.

Ltac bool_to_Z :=
  repeat match goal with
    | H : _ && _ = true |- _ => apply andb_true_iff in H; destruct H
    | H : _ || _ = true |- _ => apply orb_true_iff in H; destruct H
    | H : _ && _ = false |- _ => apply andb_false_iff in H; destruct H
    | H : _ || _ = false |- _ => apply orb_false_iff in H; destruct H
    | H : negb _ = true |- _ => apply negb_true_iff in H
    | H : negb _ = false |- _ => apply negb_false_iff in H
    | H : (_ <=? _) = true |- _ => apply Z.leb_le in H
    | H : (_ <=? _) = false |- _ => apply Z.leb_gt in H
    | H : (_ <? _) = true |- _ => apply Z.ltb_lt in H
    | H : (_ <? _) = false |- _ => apply Z.ltb_ge in H
    | H : (_ =? _) = true |- _ => apply Z.eqb_eq in H
    | H : (_ =? _) = false |- _ => apply Z.eqb_neq in H
    end.

(** Decides a boolean combination of comparisons from the arithmetic
    facts at hand, innermost tests first. *)
Ltac no_test t :=
  lazymatch t with
  | context [if _ then _ else _] => fail
  | _ => idtac
  end.

Ltac decide_tests :=
  repeat match goal with
    | |- context [?a <=? ?b] =>
        no_test a; no_test b; destruct (Z.leb_spec a b); try lia
    | |- context [?a <? ?b] =>
        no_test a; no_test b; destruct (Z.ltb_spec a b); try lia
    | |- context [?a =? ?b] =>
        no_test a; no_test b; destruct (Z.eqb_spec a b); try lia
    end;
  cbn [andb orb negb]; try reflexivity; try lia.

Ltac div_mod := Z.to_euclidean_division_equations; lia.

Section Lists.

Context {A : Type}.

(** Induction on a list three elements at a time. *)
Lemma list_ind3 (P : list A -> Prop) :
  P [] -> (forall a, P [a]) -> (forall a b, P [a; b]) ->
  (forall a b c r, P r -> P (a :: b :: c :: r)) ->
  forall l, P l.
Proof.
  intros H0 H1 H2 H3.
  fix IH 1.
  intros [| a [| b [| c r]]];
    [apply H0 | apply H1 | apply H2 | apply H3; apply IH].
Qed.

(** Induction on a list four elements at a time. *)
Lemma list_ind4 (P : list A -> Prop) :
  P [] -> (forall a, P [a]) -> (forall a b, P [a; b]) ->
  (forall a b c, P [a; b; c]) ->
  (forall a b c d r, P r -> P (a :: b :: c :: d :: r)) ->
  forall l, P l.
Proof.
  intros H0 H1 H2 H3 H4.
  fix IH 1.
  intros [| a [| b [| c [| d r]]]];
    [apply H0 | apply H1 | apply H2 | apply H3 | apply H4; apply IH].
Qed.

Lemma forallb_repeat (f : A -> bool) (x : A) (n : nat) :
  f x = true -> forallb f (repeat x n) = true.
Proof. intros Hx. induction n; simpl; [reflexivity | now rewrite Hx]. Qed.

End Lists.

(** ** Hexadecimal digits *)

Lemma upper_is_upper_hex d :
  0 <= d < 16 -> Hex.is_upper_hex (Hex.upper d) = true.
Proof. intros. unfold Hex.upper. unfold_classes. decide_tests. Qed.

Lemma value_upper d : 0 <= d < 16 -> Hex.value (Hex.upper d) = Some d.
Proof.
  intros. unfold Hex.value, Hex.upper. unfold_classes.
  decide_tests; f_equal; lia.
Qed.

Lemma value_lower d : 0 <= d < 16 -> Hex.value (Hex.lower d) = Some d.
Proof.
  intros. unfold Hex.value, Hex.lower. unfold_classes.
  decide_tests; f_equal; lia.
Qed.

Lemma octet_upper b :
  0 <= b < 256 ->
  Hex.octet (Hex.upper (b / 16)) (Hex.upper (b mod 16)) = Some b.
Proof.
  intros. unfold Hex.octet.
  rewrite !value_upper by div_mod. f_equal. div_mod.
Qed.

Lemma octet_lower b :
  0 <= b < 256 ->
  Hex.octet (Hex.lower (b / 16)) (Hex.lower (b mod 16)) = Some b.
Proof.
  intros. unfold Hex.octet.
  rewrite !value_lower by div_mod. f_equal. div_mod.
Qed.

Lemma percent_hex_octet b :
  0 <= b < 256 ->
  percent_hex b = [PERCENT; Hex.lower (b / 16); Hex.lower (b mod 16)].
Proof.
  intros. unfold percent_hex, toString16.
  destruct (Z.ltb_spec b 16).
  - cbn. replace (b / 16) with 0 by div_mod.
    replace (b mod 16) with b by div_mod. reflexivity.
  - destruct (Z.ltb_spec b 256); [reflexivity | lia].
Qed.

(** ** Base64 *)

Lemma char_is_base64 i :
  0 <= i < 64 -> Base64.is_base64_char (Base64.char i) = true.
Proof. intros. unfold Base64.char. unfold_classes. decide_tests. Qed.

Lemma sextet_char i : 0 <= i < 64 -> Base64.sextet (Base64.char i) = i.
Proof.
  intros. unfold Base64.sextet, Base64.char. unfold_classes.
  decide_tests.
Qed.

Lemma base64_char_plain c :
  Base64.is_base64_char c = true ->
  (c =? EQUALS) = false /\ Base64.is_ascii_whitespace c = false
  /\ (c =? MINUS) = false /\ (c =? UNDERSCORE) = false.
Proof.
  intros H. unfold_classes. bool_to_Z; repeat split; decide_tests.
Qed.

Lemma sextets_range bs :
  forallb octet_range bs = true ->
  Forall (fun i => 0 <= i < 64) (sextets bs).
Proof.
  induction bs as [| a | a b | a b c r IH] using list_ind3;
    simpl; intros H; unfold_classes; bool_to_Z;
    repeat constructor; try div_mod.
  apply IH. assumption.
Qed.

Lemma encode_shape bs :
  Base64.encode bs =
  map Base64.char (sextets bs) ++ repeat EQUALS (pad_count bs).
Proof.
  induction bs as [| a | a b | a b c r IH] using list_ind3;
    try reflexivity.
  cbn [Base64.encode sextets pad_count map app]. now rewrite IH.
Qed.

Lemma octets_sextets bs :
  forallb octet_range bs = true -> Base64.octets (sextets bs) = bs.
Proof.
  induction bs as [| a | a b | a b c r IH] using list_ind3;
    cbn [forallb sextets Base64.octets]; intros H;
    unfold_classes; bool_to_Z.
  - reflexivity.
  - f_equal. div_mod.
  - f_equal; [| f_equal]; div_mod.
  - rewrite IH by assumption. f_equal; [| f_equal; [| f_equal]]; div_mod.
Qed.

Lemma pad_count_le bs : (pad_count bs <= 2)%nat.
Proof.
  induction bs as [| a | a b | a b c r IH] using list_ind3; simpl; lia.
Qed.

(** The padding that [decodeText] computes from the length of the
    unpadded text is the padding that [btoa] wrote. *)
Lemma padding_sextets bs :
  Z.to_nat ((4 - Z.of_nat (length (sextets bs)) mod 4) mod 4) = pad_count bs.
Proof.
  induction bs as [| a | a b | a b c r IH] using list_ind3;
    try reflexivity.
  cbn [sextets pad_count length]. rewrite <- IH. f_equal.
  rewrite !Nat2Z.inj_succ. div_mod.
Qed.

Lemma length_sextets_mod4 bs :
  Z.of_nat (length (sextets bs)) mod 4 <> 1
  /\ (Z.of_nat (length (sextets bs)) + Z.of_nat (pad_count bs)) mod 4 = 0.
Proof.
  induction bs as [| a | a b | a b c r IH] using list_ind3;
    try (cbn; split; [discriminate | reflexivity]).
  cbn [sextets pad_count length]. rewrite !Nat2Z.inj_succ.
  destruct IH. split; div_mod.
Qed.

Lemma strip_padding_body body k :
  forallb (fun c => negb (c =? EQUALS)) body = true -> (k <= 2)%nat ->
  Base64.strip_padding (body ++ repeat EQUALS k) = body.
Proof.
  intros Hbody Hk. unfold Base64.strip_padding.
  rewrite rev_app_distr, rev_repeat.
  assert (Hlast : forall a r, rev body = a :: r -> (a =? EQUALS) = false).
  { intros a r Hr. rewrite forallb_forall in Hbody.
    apply negb_true_iff, Hbody, in_rev. rewrite Hr. now left. }
  destruct k as [| [| [| k]]]; [| | | lia]; cbn [repeat app].
  - rewrite app_nil_r. destruct (rev body) as [| a r] eqn:Hr; [reflexivity |].
    now rewrite (Hlast a r).
  - rewrite Z.eqb_refl. destruct (rev body) as [| a r] eqn:Hr.
    + apply (f_equal (@rev Z)) in Hr. now rewrite rev_involutive in Hr.
    + rewrite (Hlast a r) by reflexivity. rewrite <- Hr. apply rev_involutive.
  - rewrite !Z.eqb_refl. apply rev_involutive.
Qed.

Lemma filter_all {A} (f : A -> bool) l :
  forallb f l = true -> filter f l = l.
Proof.
  induction l as [| a l IH]; simpl; [reflexivity |].
  intros H. apply andb_true_iff in H as [Ha Hl]. now rewrite Ha, IH.
Qed.

Lemma forallb_map_char (P : Z -> bool) l :
  (forall i, 0 <= i < 64 -> P (Base64.char i) = true) ->
  Forall (fun i => 0 <= i < 64) l ->
  forallb P (map Base64.char l) = true.
Proof.
  intros HP Hl. induction Hl; simpl; [reflexivity |].
  now rewrite HP, IHHl.
Qed.

Lemma map_sextet_char l :
  Forall (fun i => 0 <= i < 64) l -> map Base64.sextet (map Base64.char l) = l.
Proof.
  intros Hl. induction Hl; simpl; [reflexivity |].
  now rewrite sextet_char, IHHl.
Qed.

(** [atob] reads back what [btoa] wrote. *)
Lemma atob_btoa data :
  forallb octet_range data = true ->
  Base64.atob (Base64.encode data) = Some data.
Proof.
  intros Hdata. pose proof (sextets_range data Hdata) as Hrange.
  destruct (length_sextets_mod4 data) as [Hne1 Hmod].
  unfold Base64.atob. rewrite encode_shape.
  rewrite filter_all.
  2:{ rewrite forallb_app. apply andb_true_iff. split.
      - apply forallb_map_char; [| assumption].
        intros i Hi. now destruct (base64_char_plain _ (char_is_base64 i Hi))
          as (_ & -> & _).
      - now apply forallb_repeat. }
  assert (Hlen : Base64.length_mod4
            (map Base64.char (sextets data) ++ repeat EQUALS (pad_count data))
          = 0).
  { unfold Base64.length_mod4.
    now rewrite length_app, length_map, repeat_length, Nat2Z.inj_add. }
  rewrite Hlen. cbn [Z.eqb].
  rewrite strip_padding_body.
  2:{ apply forallb_map_char; [| assumption].
      intros i Hi. now destruct (base64_char_plain _ (char_is_base64 i Hi))
          as (-> & _). }
  2:{ apply pad_count_le. }
  unfold Base64.length_mod4. rewrite length_map.
  destruct (Z.eqb_spec (Z.of_nat (length (sextets data)) mod 4) 1);
    [contradiction |].
  rewrite forallb_map_char by (auto using char_is_base64).
  now rewrite map_sextet_char, octets_sextets.
Qed.

(** ** From base64 to the token and back *)

Lemma replace_url_safe s :
  replace_char SLASH UNDERSCORE (replace_char PLUS MINUS s) = map url_safe s.
Proof.
  unfold replace_char. rewrite map_map. apply map_ext.
  intros c. unfold url_safe. decide_tests.
Qed.

Lemma replace_url_unsafe s :
  replace_char UNDERSCORE SLASH (replace_char MINUS PLUS s)
  = map url_unsafe s.
Proof.
  unfold replace_char. rewrite map_map. apply map_ext.
  intros c. unfold url_unsafe. decide_tests.
Qed.

Lemma url_safe_token c :
  Base64.is_base64_char c = true -> is_token_char (url_safe c) = true.
Proof.
  intros H. unfold url_safe. unfold_classes. bool_to_Z; decide_tests.
Qed.

Lemma url_unsafe_safe c :
  Base64.is_base64_char c = true -> url_unsafe (url_safe c) = c.
Proof.
  intros H. unfold url_unsafe, url_safe. unfold_classes.
  bool_to_Z; decide_tests.
Qed.

Lemma token_char_not_equals c :
  is_token_char c = true -> negb (c =? EQUALS) = true.
Proof. intros H. unfold_classes. bool_to_Z; decide_tests. Qed.

Lemma strip_trailing_equals_body body k :
  forallb (fun c => negb (c =? EQUALS)) body = true ->
  strip_trailing_equals (body ++ repeat EQUALS k) = body.
Proof.
  induction body as [| c r IH]; cbn [app forallb]; intros H.
  - destruct k; [reflexivity |]. cbn [repeat strip_trailing_equals].
    now rewrite Z.eqb_refl, forallb_repeat.
  - apply andb_true_iff in H as [Hc Hr]. cbn [strip_trailing_equals].
    apply negb_true_iff in Hc. rewrite Hc. cbn [andb]. now rewrite IH.
Qed.

Lemma token_of_is_token bs :
  forallb octet_range bs = true -> is_token (token_of bs) = true.
Proof.
  intros H. apply sextets_range in H. unfold is_token, token_of.
  induction H; cbn [map forallb]; [reflexivity |].
  now rewrite url_safe_token, IHForall by now apply char_is_base64.
Qed.

Lemma strip_replace_encode bs :
  forallb octet_range bs = true ->
  strip_trailing_equals
    (replace_char SLASH UNDERSCORE (replace_char PLUS MINUS (Base64.encode bs)))
  = token_of bs.
Proof.
  intros H. rewrite replace_url_safe, encode_shape, map_app, map_repeat.
  change (url_safe EQUALS) with EQUALS.
  apply strip_trailing_equals_body.
  pose proof (token_of_is_token bs H) as Htok. unfold is_token in Htok.
  rewrite forallb_forall in *. intros c Hc.
  now apply token_char_not_equals, Htok.
Qed.

Lemma unsafe_token_of bs :
  forallb octet_range bs = true ->
  map url_unsafe (token_of bs) = map Base64.char (sextets bs).
Proof.
  intros H. apply sextets_range in H. unfold token_of.
  induction H; cbn [map]; [reflexivity |].
  now rewrite url_unsafe_safe, IHForall by now apply char_is_base64.
Qed.

(** Undoing the replacements and padding the token gives the base64
    text again. *)
Lemma repad_token_of bs :
  forallb octet_range bs = true ->
  let base64 :=
    replace_char UNDERSCORE SLASH (replace_char MINUS PLUS (token_of bs)) in
  base64 ++ padding base64 = Base64.encode bs.
Proof.
  intros H. cbv zeta. rewrite replace_url_unsafe, unsafe_token_of by assumption.
  unfold padding. now rewrite length_map, padding_sextets, encode_shape.
Qed.

(** ** UTF-8 and URI escapes *)

Lemma well_formed_ind (P : jsstring -> Prop) :
  P [] ->
  (forall c r,
      is_leading_surrogate c = false -> is_trailing_surrogate c = false ->
      code_unit c = true -> well_formed r = true -> P r -> P (c :: r)) ->
  (forall c d r,
      is_leading_surrogate c = true -> is_trailing_surrogate d = true ->
      well_formed r = true -> P r -> P (c :: d :: r)) ->
  forall s, well_formed s = true -> P s.
Proof.
  intros Hnil Hunit Hpair. fix IH 1. intros [| c r]; [intros _; exact Hnil |].
  cbn [well_formed].
  destruct (is_leading_surrogate c) eqn:Hlead.
  - destruct r as [| d r']; [discriminate |]. intros H.
    apply andb_true_iff in H as [Hd Hr]. apply Hpair; auto.
  - destruct (is_trailing_surrogate c) eqn:Htrail; [discriminate |].
    intros H. apply andb_true_iff in H as [Hc Hr]. apply Hunit; auto.
Qed.

Lemma utf8_range cp :
  0 <= cp < 1114112 -> forallb octet_range (Unicode.utf8 cp) = true.
Proof.
  intros H. unfold Unicode.utf8.
  destruct (Z.ltb_spec cp 128); [| destruct (Z.ltb_spec cp 2048);
    [| destruct (Z.ltb_spec cp 65536)]];
    cbn [forallb]; unfold octet_range, between;
    rewrite ?andb_true_r, ?andb_true_iff, ?Z.leb_le;
    repeat split; div_mod.
Qed.

Lemma pair_range c d :
  is_leading_surrogate c = true -> is_trailing_surrogate d = true ->
  65536 <= Unicode.pair_to_code_point c d < 1114112.
Proof.
  intros Hc Hd. unfold Unicode.pair_to_code_point.
  unfold_classes. bool_to_Z. lia.
Qed.

Lemma utf8_of_range :
  forall s, well_formed s = true -> forallb octet_range (utf8_of s) = true.
Proof.
  apply well_formed_ind; [reflexivity | |].
  - intros c r Hl Ht Hc Hr IH. cbn [utf8_of].
    rewrite Hl, forallb_app, IH, andb_true_r. apply utf8_range.
    unfold_classes. bool_to_Z; lia.
  - intros c d r Hc Hd Hr IH. cbn [utf8_of].
    rewrite Hc, forallb_app, IH, andb_true_r. apply utf8_range.
    pose proof (pair_range c d Hc Hd). lia.
Qed.

Lemma unescaped_ascii c :
  URI.unescaped c = true ->
  (c =? PERCENT) = false /\ 0 <= c < 128
  /\ is_leading_surrogate c = false /\ is_trailing_surrogate c = false.
Proof.
  intros H. unfold_classes. bool_to_Z; repeat split; decide_tests.
Qed.

Lemma toSolidBytes_escape b rest :
  0 <= b < 256 -> toSolidBytes (URI.escape b ++ rest) = b :: toSolidBytes rest.
Proof.
  intros H. cbn [URI.escape app toSolidBytes]. rewrite Z.eqb_refl.
  rewrite !upper_is_upper_hex by div_mod. cbn [andb].
  now rewrite octet_upper.
Qed.

Lemma toSolidBytes_escape_all bs rest :
  forallb octet_range bs = true ->
  toSolidBytes (URI.escape_all bs ++ rest) = bs ++ toSolidBytes rest.
Proof.
  unfold URI.escape_all.
  induction bs as [| b bs IH]; cbn [flat_map forallb app]; [reflexivity |].
  intros H. apply andb_true_iff in H as [Hb Hbs].
  rewrite <- app_assoc, toSolidBytes_escape, IH; auto.
  unfold_classes. bool_to_Z. lia.
Qed.

(** On a well-formed string [encodeURIComponent] succeeds, and the
    replacement of its escapes leaves the UTF-8 octets of the string,
    one code unit per octet. *)
Lemma encodeURIComponent_utf8 :
  forall s, well_formed s = true ->
  exists e, URI.encodeURIComponent s = Some e /\ toSolidBytes e = utf8_of s.
Proof.
  apply well_formed_ind.
  - exists []. split; reflexivity.
  - intros c r Hl Ht Hc Hr (e & He & Hbytes).
    cbn [URI.encodeURIComponent utf8_of]. rewrite Hl, Ht, He.
    destruct (URI.unescaped c) eqn:Hun; cbn [option_map].
    + exists (c :: e). split; [reflexivity |].
      destruct (unescaped_ascii c Hun) as (Hp & Hrange & _).
      cbn [toSolidBytes]. rewrite Hp, Hbytes. unfold Unicode.utf8.
      destruct (Z.ltb_spec c 128); [reflexivity | lia].
    + eexists. split; [reflexivity |].
      rewrite toSolidBytes_escape_all, Hbytes; [reflexivity |].
      apply utf8_range. unfold_classes. bool_to_Z; lia.
  - intros c d r Hc Hd Hr (e & He & Hbytes).
    cbn [URI.encodeURIComponent utf8_of]. rewrite Hc, Hd, He.
    destruct (URI.unescaped c) eqn:Hun.
    { destruct (unescaped_ascii c Hun) as (_ & _ & Hl & _). congruence. }
    cbn [option_map]. eexists. split; [reflexivity |].
    rewrite toSolidBytes_escape_all, Hbytes; [reflexivity |].
    apply utf8_range. pose proof (pair_range c d Hc Hd). lia.
Qed.

(** The escapes that [decodeText] writes, read by
    [decodeURIComponent]: one lemma for each length of a UTF-8
    sequence. *)
Lemma decode_percent_hex b rest :
  0 <= b < 256 ->
  percent_hex b ++ rest
  = PERCENT :: Hex.lower (b / 16) :: Hex.lower (b mod 16) :: rest.
Proof. intros H. now rewrite percent_hex_octet. Qed.

Lemma escaped_lower b :
  0 <= b < 256 ->
  URI.escaped PERCENT (Hex.lower (b / 16)) (Hex.lower (b mod 16)) = Some b.
Proof. intros H. unfold URI.escaped. now rewrite Z.eqb_refl, octet_lower. Qed.

Lemma decodeURIComponent_escape s h l :
  URI.decodeURIComponent (PERCENT :: h :: l :: s)
  = match Hex.octet h l with
    | None => None
    | Some b =>
        if b <? 128 then option_map (cons b) (URI.decodeURIComponent s)
        else if b <? 192 then None
        else if b <? 224 then
          match s with
          | p1 :: h1 :: l1 :: r2 =>
              match URI.escaped p1 h1 l1 with
              | Some b1 =>
                  match Unicode.decode2 b b1 with
                  | Some cp =>
                      option_map (app (Unicode.utf16 cp))
                                 (URI.decodeURIComponent r2)
                  | None => None
                  end
              | None => None
              end
          | _ => None
          end
        else if b <? 240 then
          match s with
          | p1 :: h1 :: l1 :: p2 :: h2 :: l2 :: r3 =>
              match URI.escaped p1 h1 l1, URI.escaped p2 h2 l2 with
              | Some b1, Some b2 =>
                  match Unicode.decode3 b b1 b2 with
                  | Some cp =>
                      option_map (app (Unicode.utf16 cp))
                                 (URI.decodeURIComponent r3)
                  | None => None
                  end
              | _, _ => None
              end
          | _ => None
          end
        else if b <? 248 then
          match s with
          | p1 :: h1 :: l1 :: p2 :: h2 :: l2 :: p3 :: h3 :: l3 :: r4 =>
              match URI.escaped p1 h1 l1, URI.escaped p2 h2 l2,
                    URI.escaped p3 h3 l3 with
              | Some b1, Some b2, Some b3 =>
                  match Unicode.decode4 b b1 b2 b3 with
                  | Some cp =>
                      option_map (app (Unicode.utf16 cp))
                                 (URI.decodeURIComponent r4)
                  | None => None
                  end
              | _, _, _ => None
              end
          | _ => None
          end
        else None
    end.
Proof. reflexivity. Qed.

Lemma decode_utf8_1 cp rest :
  0 <= cp < 128 ->
  URI.decodeURIComponent (flat_map percent_hex (Unicode.utf8 cp) ++ rest)
  = option_map (app (Unicode.utf16 cp)) (URI.decodeURIComponent rest).
Proof.
  intros H. unfold Unicode.utf8, Unicode.utf16.
  destruct (Z.ltb_spec cp 128); [| lia].
  destruct (Z.leb_spec cp 65535); [| lia].
  cbn [flat_map]. rewrite app_nil_r, decode_percent_hex by lia.
  rewrite decodeURIComponent_escape, octet_lower by lia.
  destruct (Z.ltb_spec cp 128); [reflexivity | lia].
Qed.

Lemma decode_utf8_2 cp rest :
  128 <= cp < 2048 ->
  URI.decodeURIComponent (flat_map percent_hex (Unicode.utf8 cp) ++ rest)
  = option_map (app (Unicode.utf16 cp)) (URI.decodeURIComponent rest).
Proof.
  intros H. unfold Unicode.utf8.
  destruct (Z.ltb_spec cp 128); [lia |].
  destruct (Z.ltb_spec cp 2048); [| lia].
  cbn [flat_map]. rewrite app_nil_r, <- app_assoc.
  rewrite !decode_percent_hex by div_mod.
  rewrite decodeURIComponent_escape, octet_lower by div_mod.
  destruct (Z.ltb_spec (192 + cp / 64) 128); [div_mod |].
  destruct (Z.ltb_spec (192 + cp / 64) 192); [div_mod |].
  destruct (Z.ltb_spec (192 + cp / 64) 224); [| div_mod].
  rewrite escaped_lower by div_mod.
  replace (Unicode.decode2 (192 + cp / 64) (128 + cp mod 64)) with (Some cp);
    [reflexivity |].
  unfold Unicode.decode2, Unicode.is_continuation, between.
  replace ((192 + cp / 64 - 192) * 64 + (128 + cp mod 64 - 128)) with cp
    by div_mod.
  symmetry. decide_tests; div_mod.
Qed.

Lemma decode_utf8_3 cp rest :
  2048 <= cp < 65536 -> between 55296 57343 cp = false ->
  URI.decodeURIComponent (flat_map percent_hex (Unicode.utf8 cp) ++ rest)
  = option_map (app (Unicode.utf16 cp)) (URI.decodeURIComponent rest).
Proof.
  intros H Hsur. unfold Unicode.utf8.
  destruct (Z.ltb_spec cp 128); [lia |].
  destruct (Z.ltb_spec cp 2048); [lia |].
  destruct (Z.ltb_spec cp 65536); [| lia].
  cbn [flat_map]. rewrite app_nil_r, <- !app_assoc.
  rewrite !decode_percent_hex by div_mod.
  rewrite decodeURIComponent_escape, octet_lower by div_mod.
  destruct (Z.ltb_spec (224 + cp / 4096) 128); [div_mod |].
  destruct (Z.ltb_spec (224 + cp / 4096) 192); [div_mod |].
  destruct (Z.ltb_spec (224 + cp / 4096) 224); [div_mod |].
  destruct (Z.ltb_spec (224 + cp / 4096) 240); [| div_mod].
  rewrite !escaped_lower by div_mod.
  replace (Unicode.decode3 _ _ _) with (Some cp); [reflexivity |].
  unfold Unicode.decode3, Unicode.is_continuation.
  replace (((224 + cp / 4096 - 224) * 64 + (128 + (cp / 64) mod 64 - 128))
           * 64 + (128 + cp mod 64 - 128)) with cp by div_mod.
  rewrite Hsur. unfold between. symmetry. decide_tests; div_mod.
Qed.

Lemma decode_utf8_4 cp rest :
  65536 <= cp < 1114112 ->
  URI.decodeURIComponent (flat_map percent_hex (Unicode.utf8 cp) ++ rest)
  = option_map (app (Unicode.utf16 cp)) (URI.decodeURIComponent rest).
Proof.
  intros H. unfold Unicode.utf8.
  destruct (Z.ltb_spec cp 128); [lia |].
  destruct (Z.ltb_spec cp 2048); [lia |].
  destruct (Z.ltb_spec cp 65536); [lia |].
  cbn [flat_map]. rewrite app_nil_r, <- !app_assoc.
  rewrite !decode_percent_hex by div_mod.
  rewrite decodeURIComponent_escape, octet_lower by div_mod.
  destruct (Z.ltb_spec (240 + cp / 262144) 128); [div_mod |].
  destruct (Z.ltb_spec (240 + cp / 262144) 192); [div_mod |].
  destruct (Z.ltb_spec (240 + cp / 262144) 224); [div_mod |].
  destruct (Z.ltb_spec (240 + cp / 262144) 240); [div_mod |].
  destruct (Z.ltb_spec (240 + cp / 262144) 248); [| div_mod].
  rewrite !escaped_lower by div_mod.
  replace (Unicode.decode4 _ _ _ _) with (Some cp); [reflexivity |].
  unfold Unicode.decode4, Unicode.is_continuation.
  replace ((((240 + cp / 262144 - 240) * 64
             + (128 + (cp / 4096) mod 64 - 128)) * 64
            + (128 + (cp / 64) mod 64 - 128)) * 64
           + (128 + cp mod 64 - 128)) with cp by div_mod.
  unfold between. symmetry. decide_tests; div_mod.
Qed.

(** A code point, written in UTF-8 and escaped, is read back as its
    UTF-16 code units. *)
Lemma decode_utf8 cp rest :
  0 <= cp < 1114112 -> between 55296 57343 cp = false ->
  URI.decodeURIComponent (flat_map percent_hex (Unicode.utf8 cp) ++ rest)
  = option_map (app (Unicode.utf16 cp)) (URI.decodeURIComponent rest).
Proof.
  intros H Hsur.
  destruct (Z.ltb_spec cp 128); [apply decode_utf8_1; lia |].
  destruct (Z.ltb_spec cp 2048); [apply decode_utf8_2; lia |].
  destruct (Z.ltb_spec cp 65536); [apply decode_utf8_3; auto; lia |].
  apply decode_utf8_4; lia.
Qed.

Lemma utf16_pair c d :
  is_leading_surrogate c = true -> is_trailing_surrogate d = true ->
  Unicode.utf16 (Unicode.pair_to_code_point c d) = [c; d].
Proof.
  intros Hc Hd. pose proof (pair_range c d Hc Hd) as Hrange.
  unfold Unicode.utf16.
  destruct (Z.leb_spec (Unicode.pair_to_code_point c d) 65535); [lia |].
  unfold Unicode.pair_to_code_point in *. unfold_classes. bool_to_Z.
  f_equal; [| f_equal]; div_mod.
Qed.

Lemma utf16_unit c :
  code_unit c = true -> Unicode.utf16 c = [c].
Proof.
  intros Hc. unfold Unicode.utf16. unfold_classes. bool_to_Z.
  destruct (Z.leb_spec c 65535); [reflexivity | lia].
Qed.

(** [decodeURIComponent] reads the escaped UTF-8 octets of a
    well-formed string back as that string. *)
Lemma decodeURIComponent_utf8_of :
  forall s, well_formed s = true ->
  URI.decodeURIComponent (flat_map percent_hex (utf8_of s)) = Some s.
Proof.
  apply well_formed_ind; [reflexivity | |].
  - intros c r Hl Ht Hc Hr IH. cbn [utf8_of]. rewrite Hl, flat_map_app.
    rewrite decode_utf8, IH, utf16_unit; auto.
    + unfold_classes. bool_to_Z; lia.
    + unfold_classes. bool_to_Z; decide_tests.
  - intros c d r Hc Hd Hr IH. cbn [utf8_of]. rewrite Hc, flat_map_app.
    pose proof (pair_range c d Hc Hd) as Hrange.
    rewrite decode_utf8, IH, utf16_pair; auto; [lia |].
    unfold between. decide_tests.
Qed.

(** ** The codec *)

(** [encodeText] on a well-formed string: the token of its UTF-8
    octets. *)
Lemma encodeText_well_formed s :
  well_formed s = true -> encodeText s = Some (token_of (utf8_of s)).
Proof.
  intros Hwf. unfold encodeText.
  destruct (encodeURIComponent_utf8 s Hwf) as (e & -> & ->).
  pose proof (utf8_of_range s Hwf) as Hrange.
  unfold Base64.btoa. rewrite Hrange.
  now rewrite strip_replace_encode.
Qed.

(** [decodeText] on the token of an octet sequence: the escapes of the
    octets, handed to [decodeURIComponent]. *)
Lemma decodeText_token_of bs :
  forallb octet_range bs = true ->
  decodeText (token_of bs)
  = URI.decodeURIComponent (flat_map percent_hex bs).
Proof.
  intros H. unfold decodeText.
  rewrite (repad_token_of bs H). now rewrite atob_btoa.
Qed.

Lemma roundtrip s :
  well_formed s = true ->
  exists token, encodeText s = Some token /\ decodeText token = Some s.
Proof.
  intros Hwf. exists (token_of (utf8_of s)). split.
  - now apply encodeText_well_formed.
  - rewrite decodeText_token_of by now apply utf8_of_range.
    now apply decodeURIComponent_utf8_of.
Qed.

(** ** What a successful [decodeURIComponent] says about the octets *)

Lemma decode2_inv b0 b1 cp :
  192 <= b0 < 224 -> Unicode.decode2 b0 b1 = Some cp ->
  128 <= cp < 2048 /\ Unicode.utf8 cp = [b0; b1].
Proof.
  unfold Unicode.decode2. intros Hb0 H.
  destruct (_ && _) eqn:Hvalid in H; [| discriminate].
  injection H as <-. unfold_classes. bool_to_Z.
  split; [lia |]. unfold Unicode.utf8.
  set (cp := (b0 - 192) * 64 + (b1 - 128)) in *.
  destruct (Z.ltb_spec cp 128); [lia |].
  destruct (Z.ltb_spec cp 2048); [| lia].
  subst cp. f_equal; [| f_equal]; div_mod.
Qed.

Lemma decode3_inv b0 b1 b2 cp :
  224 <= b0 < 240 -> Unicode.decode3 b0 b1 b2 = Some cp ->
  2048 <= cp < 65536 /\ between 55296 57343 cp = false
  /\ Unicode.utf8 cp = [b0; b1; b2].
Proof.
  unfold Unicode.decode3. intros Hb0 H.
  destruct (_ && _) eqn:Hvalid in H; [| discriminate].
  injection H as <-.
  apply andb_true_iff in Hvalid as [Hvalid Hsur].
  apply negb_true_iff in Hsur.
  unfold Unicode.is_continuation, between in Hvalid. bool_to_Z.
  set (cp := ((b0 - 224) * 64 + (b1 - 128)) * 64 + (b2 - 128)) in *.
  split; [lia |]. split; [assumption |]. unfold Unicode.utf8.
  destruct (Z.ltb_spec cp 128); [lia |].
  destruct (Z.ltb_spec cp 2048); [lia |].
  destruct (Z.ltb_spec cp 65536); [| lia].
  subst cp. f_equal; [| f_equal; [| f_equal]]; div_mod.
Qed.

Lemma decode4_inv b0 b1 b2 b3 cp :
  240 <= b0 < 248 -> Unicode.decode4 b0 b1 b2 b3 = Some cp ->
  65536 <= cp < 1114112 /\ Unicode.utf8 cp = [b0; b1; b2; b3].
Proof.
  unfold Unicode.decode4. intros Hb0 H.
  destruct (_ && _) eqn:Hvalid in H; [| discriminate].
  injection H as <-. unfold_classes. bool_to_Z.
  set (cp := (((b0 - 240) * 64 + (b1 - 128)) * 64 + (b2 - 128)) * 64
             + (b3 - 128)) in *.
  split; [lia |]. unfold Unicode.utf8.
  destruct (Z.ltb_spec cp 128); [lia |].
  destruct (Z.ltb_spec cp 2048); [lia |].
  destruct (Z.ltb_spec cp 65536); [lia |].
  subst cp. f_equal; [| f_equal; [| f_equal; [| f_equal]]]; div_mod.
Qed.

(** The code units of a code point in front of a well-formed string. *)
Lemma utf16_well_formed cp s :
  0 <= cp < 1114112 -> between 55296 57343 cp = false ->
  well_formed s = true ->
  well_formed (Unicode.utf16 cp ++ s) = true
  /\ utf8_of (Unicode.utf16 cp ++ s) = Unicode.utf8 cp ++ utf8_of s.
Proof.
  intros Hcp Hsur Hs. unfold Unicode.utf16.
  destruct (Z.leb_spec cp 65535).
  - assert (Hl : is_leading_surrogate cp = false)
      by (unfold_classes; bool_to_Z; decide_tests).
    assert (Ht : is_trailing_surrogate cp = false)
      by (unfold_classes; bool_to_Z; decide_tests).
    assert (Hc : code_unit cp = true) by (unfold_classes; decide_tests).
    cbn [app well_formed utf8_of]. now rewrite Hl, Ht, Hc, Hs.
  - set (lead := (cp - 65536) / 1024 + 55296).
    set (trail := (cp - 65536) mod 1024 + 56320).
    assert (Hl : is_leading_surrogate lead = true)
      by (subst lead; unfold_classes; apply andb_true_iff;
          rewrite !Z.leb_le; div_mod).
    assert (Ht : is_trailing_surrogate trail = true)
      by (subst trail; unfold_classes; apply andb_true_iff;
          rewrite !Z.leb_le; div_mod).
    cbn [app well_formed utf8_of]. rewrite Hl, Ht, Hs.
    split; [reflexivity |]. do 2 f_equal.
    subst lead trail. unfold Unicode.pair_to_code_point. div_mod.
Qed.

Lemma option_map_Some {A B} (f : A -> B) (o : option A) (b : B) :
  option_map f o = Some b -> exists a, o = Some a /\ b = f a.
Proof.
  destruct o as [a |]; [| discriminate].
  intros [= <-]. now exists a.
Qed.

Lemma octet_range_bounds b : octet_range b = true -> 0 <= b < 256.
Proof. intros H. unfold_classes. bool_to_Z. lia. Qed.

(** If [decodeURIComponent] returns a string for the escapes of an
    octet sequence, the string is well formed and the octets are its
    UTF-8 encoding: nothing is dropped, nothing is replaced. *)
Lemma decodeURIComponent_sound :
  forall (n : nat) (bs : list Z) (s : jsstring),
    (length bs <= n)%nat -> forallb octet_range bs = true ->
    URI.decodeURIComponent (flat_map percent_hex bs) = Some s ->
    well_formed s = true /\ utf8_of s = bs.
Proof.
  induction n as [| n IH]; intros bs s Hlen Hrange Hdec.
  { destruct bs; [| simpl in Hlen; lia]. injection Hdec as <-. now split. }
  destruct bs as [| b0 rest].
  { injection Hdec as <-. now split. }
  cbn [forallb] in Hrange. apply andb_true_iff in Hrange as [Hb0 Hrest].
  apply octet_range_bounds in Hb0. cbn [length] in Hlen.
  cbn [flat_map] in Hdec.
  rewrite decode_percent_hex, decodeURIComponent_escape, octet_lower in Hdec
    by assumption.
  destruct (Z.ltb_spec b0 128).
  { (* one octet *)
    apply option_map_Some in Hdec as (s' & Hs' & ->).
    apply IH in Hs' as [Hwf Hutf]; [| lia | assumption].
    destruct (utf16_well_formed b0 s') as [Hw Hu];
      [lia | unfold between; decide_tests | assumption |].
    rewrite utf16_unit in Hw, Hu by (unfold_classes; decide_tests).
    cbn [app] in Hw, Hu. split; [exact Hw |]. rewrite Hu, Hutf. unfold Unicode.utf8.
    destruct (Z.ltb_spec b0 128); [reflexivity | lia]. }
  destruct (Z.ltb_spec b0 192); [discriminate |].
  destruct (Z.ltb_spec b0 224).
  { (* two octets *)
    destruct rest as [| b1 rest]; [discriminate |].
    cbn [forallb] in Hrest. apply andb_true_iff in Hrest as [Hb1 Hrest].
    apply octet_range_bounds in Hb1. cbn [length] in Hlen.
    cbn [flat_map] in Hdec.
    rewrite decode_percent_hex, escaped_lower in Hdec by assumption.
    destruct (Unicode.decode2 b0 b1) as [cp |] eqn:Hcp; [| discriminate].
    apply decode2_inv in Hcp as [Hcp Hutf8]; [| lia].
    apply option_map_Some in Hdec as (s' & Hs' & ->).
    apply IH in Hs' as [Hwf Hutf]; [| lia | assumption].
    destruct (utf16_well_formed cp s') as [Hw Hu];
      [lia | unfold between; decide_tests | assumption |].
    split; [exact Hw |]. now rewrite Hu, Hutf, Hutf8. }
  destruct (Z.ltb_spec b0 240).
  { (* three octets *)
    destruct rest as [| b1 [| b2 rest]]; try discriminate.
    { cbn [flat_map] in Hdec. cbn [forallb] in Hrest.
      apply andb_true_iff in Hrest as [Hb1 _].
      apply octet_range_bounds in Hb1.
      rewrite decode_percent_hex in Hdec by assumption. discriminate. }
    cbn [forallb] in Hrest. apply andb_true_iff in Hrest as [Hb1 Hrest].
    apply andb_true_iff in Hrest as [Hb2 Hrest].
    apply octet_range_bounds in Hb1, Hb2. cbn [length] in Hlen.
    cbn [flat_map] in Hdec.
    rewrite (decode_percent_hex b1), (decode_percent_hex b2) in Hdec
      by assumption.
    rewrite !escaped_lower in Hdec by assumption.
    destruct (Unicode.decode3 b0 b1 b2) as [cp |] eqn:Hcp; [| discriminate].
    apply decode3_inv in Hcp as (Hcp & Hsur & Hutf8); [| lia].
    apply option_map_Some in Hdec as (s' & Hs' & ->).
    apply IH in Hs' as [Hwf Hutf]; [| lia | assumption].
    destruct (utf16_well_formed cp s') as [Hw Hu];
      [lia | assumption | assumption |].
    split; [exact Hw |]. now rewrite Hu, Hutf, Hutf8. }
  destruct (Z.ltb_spec b0 248); [| discriminate].
  (* four octets *)
  destruct rest as [| b1 [| b2 [| b3 rest]]]; try discriminate.
  { cbn [flat_map] in Hdec. cbn [forallb] in Hrest.
    apply andb_true_iff in Hrest as [Hb1 _].
    apply octet_range_bounds in Hb1.
    rewrite decode_percent_hex in Hdec by assumption. discriminate. }
  { cbn [flat_map] in Hdec. cbn [forallb] in Hrest.
    apply andb_true_iff in Hrest as [Hb1 Hrest].
    apply andb_true_iff in Hrest as [Hb2 _].
    apply octet_range_bounds in Hb1, Hb2.
    rewrite (decode_percent_hex b1), (decode_percent_hex b2) in Hdec
      by assumption.
    discriminate. }
  cbn [forallb] in Hrest. apply andb_true_iff in Hrest as [Hb1 Hrest].
  apply andb_true_iff in Hrest as [Hb2 Hrest].
  apply andb_true_iff in Hrest as [Hb3 Hrest].
  apply octet_range_bounds in Hb1, Hb2, Hb3. cbn [length] in Hlen.
  cbn [flat_map] in Hdec.
  rewrite (decode_percent_hex b1), (decode_percent_hex b2),
    (decode_percent_hex b3) in Hdec by assumption.
  rewrite !escaped_lower in Hdec by assumption.
  destruct (Unicode.decode4 b0 b1 b2 b3) as [cp |] eqn:Hcp; [| discriminate].
  apply decode4_inv in Hcp as (Hcp & Hutf8); [| lia].
  apply option_map_Some in Hdec as (s' & Hs' & ->).
  apply IH in Hs' as [Hwf Hutf]; [| lia | assumption].
  destruct (utf16_well_formed cp s') as [Hw Hu];
    [lia | unfold between; decide_tests | assumption |].
  split; [exact Hw |]. now rewrite Hu, Hutf, Hutf8.
Qed.

(** ** Failures of [atob] and of [decodeText] *)

Lemma sextet_range c :
  Base64.is_base64_char c = true -> 0 <= Base64.sextet c < 64.
Proof.
  intros H. unfold Base64.sextet. unfold_classes.
  bool_to_Z; decide_tests.
Qed.

Lemma octets_range ds :
  Forall (fun i => 0 <= i < 64) ds ->
  forallb octet_range (Base64.octets ds) = true.
Proof.
  induction ds as [| a | a b | a b c | a b c d r IH] using list_ind4;
    intros H; cbn [Base64.octets forallb]; try reflexivity;
    repeat match goal with
      | H : Forall _ (_ :: _) |- _ => inversion_clear H
      end;
    rewrite ?IH by assumption;
    unfold octet_range, between;
    rewrite ?andb_true_r, ?andb_true_iff, ?Z.leb_le;
    repeat split; div_mod.
Qed.

Lemma atob_range data bs :
  Base64.atob data = Some bs -> forallb octet_range bs = true.
Proof.
  unfold Base64.atob.
  set (d := if _ =? 0 then _ else _).
  destruct (_ =? 1); [discriminate |].
  destruct (forallb Base64.is_base64_char d) eqn:Hd; [| discriminate].
  intros [= <-]. apply octets_range.
  rewrite forallb_forall in Hd.
  apply Forall_forall. intros i Hi. apply in_map_iff in Hi as (c & <- & Hc).
  now apply sextet_range, Hd.
Qed.






Lemma decodeText_octets token :
  decodeText token
  = match token_octets token with
    | None => None
    | Some bin => URI.decodeURIComponent (flat_map percent_hex bin)
    end.
Proof. reflexivity. Qed.

(** A text that [decodeText] returns is a well-formed string whose
    UTF-8 octets are the octets of the token. *)
Lemma decodeText_sound token s :
  decodeText token = Some s ->
  well_formed s = true /\ token_octets token = Some (utf8_of s).
Proof.
  rewrite decodeText_octets.
  destruct (token_octets token) as [bin |] eqn:Hbin; [| discriminate].
  intros Hdec. unfold token_octets in Hbin. apply atob_range in Hbin.
  apply (decodeURIComponent_sound (length bin)) in Hdec as [Hwf Hutf];
    [| lia | assumption].
  split; [assumption | now rewrite Hutf].
Qed.

Lemma octets_nil ds : Base64.octets ds = [] -> (length ds <= 1)%nat.
Proof.
  destruct ds as [| a [| b [| c [| d r]]]]; cbn; try discriminate; lia.
Qed.

Lemma strip_padding_nil data :
  Base64.strip_padding data = [] -> (length data <= 2)%nat.
Proof.
  unfold Base64.strip_padding.
  rewrite <- (length_rev data).
  destruct (rev data) as [| a [| b r]] eqn:Hrev; cbn [length]; try lia.
  destruct (a =? EQUALS).
  - destruct (b =? EQUALS).
    + intros H. apply (f_equal (@length Z)) in H.
      rewrite length_rev in H. cbn in H. lia.
    + intros H. apply (f_equal (@length Z)) in H.
      rewrite length_rev in H. cbn in H. lia.
  - intros ->. discriminate.
Qed.

(** [atob] returns no octets only for data that is white space
    throughout. *)
Lemma atob_nil data :
  Base64.atob data = Some [] ->
  filter (fun c => negb (Base64.is_ascii_whitespace c)) data = [].
Proof.
  unfold Base64.atob. set (d0 := filter _ data).
  unfold Base64.length_mod4.
  destruct (Z.eqb_spec (Z.of_nat (length d0) mod 4) 0) as [Hmod | Hmod].
  - destruct (Z.eqb_spec (Z.of_nat (length (Base64.strip_padding d0)) mod 4) 1)
      as [| Hne]; [discriminate |].
    destruct (forallb _ _); [| discriminate].
    intros [= H]. apply octets_nil in H. rewrite length_map in H.
    assert (Hs : Base64.strip_padding d0 = []).
    { destruct (Base64.strip_padding d0) as [| a [| b r]];
        [reflexivity | | cbn in H; lia].
      cbn in Hne. contradiction. }
    apply strip_padding_nil in Hs.
    destruct d0 as [| a [| b [| c r]]]; [reflexivity | | |];
      cbn in Hmod, Hs; try lia; discriminate.
  - destruct (Z.eqb_spec (Z.of_nat (length d0) mod 4) 1) as [| Hne];
      [discriminate |].
    destruct (forallb _ _); [| discriminate].
    intros [= H]. apply octets_nil in H. rewrite length_map in H.
    destruct d0 as [| a [| b r]]; [reflexivity | | cbn in H; lia].
    cbn in Hne. contradiction.
Qed.

Lemma filter_nil {A} (f : A -> bool) (l : list A) :
  filter f l = [] -> forallb (fun x => negb (f x)) l = true.
Proof.
  induction l as [| a l IH]; cbn; [reflexivity |].
  destruct (f a); [discriminate |]. auto.
Qed.

Lemma whitespace_url_unsafe c :
  Base64.is_ascii_whitespace (url_unsafe c) = Base64.is_ascii_whitespace c.
Proof. unfold url_unsafe. unfold_classes. decide_tests. Qed.

(** [decodeText] returns the empty string only for a token that is
    ASCII white space throughout and whose length is a multiple of
    four, and it does so for every such token. *)
Lemma decodeText_empty_only token :
  decodeText token = Some [] ->
  forallb Base64.is_ascii_whitespace token = true
  /\ Z.of_nat (length token) mod 4 = 0.
Proof.
  intros Hdec. apply decodeText_sound in Hdec as [_ Hoct].
  unfold token_octets in Hoct. rewrite replace_url_unsafe in Hoct.
  apply atob_nil, filter_nil in Hoct.
  rewrite forallb_app in Hoct. apply andb_true_iff in Hoct as [Htok Hpad].
  split.
  - rewrite forallb_forall in *. intros c Hc.
    specialize (Htok (url_unsafe c) (in_map _ _ _ Hc)).
    rewrite negb_involutive in Htok.
    now rewrite whitespace_url_unsafe in Htok.
  - unfold padding in Hpad. rewrite length_map in Hpad.
    destruct (Z.to_nat ((4 - Z.of_nat (length token) mod 4) mod 4)) eqn:Hk;
      [| discriminate].
    div_mod.
Qed.

Lemma decodeText_whitespace_empty token :
  forallb Base64.is_ascii_whitespace token = true ->
  Z.of_nat (length token) mod 4 = 0 ->
  decodeText token = Some [].
Proof.
  intros Hws Hlen. unfold decodeText. rewrite replace_url_unsafe.
  unfold padding. rewrite length_map, Hlen.
  change (Z.to_nat ((4 - 0) mod 4)) with 0%nat. cbn [repeat].
  rewrite app_nil_r. unfold Base64.atob.
  replace (filter _ (map url_unsafe token)) with (@nil Z); [reflexivity |].
  symmetry. clear Hlen. induction token as [| c r IH]; [reflexivity |].
  cbn [forallb] in Hws. apply andb_true_iff in Hws as [Hc Hr].
  cbn [map filter]. rewrite whitespace_url_unsafe, Hc. cbn [negb].
  now apply IH.
Qed.







(** Every token that [encodeText] returns is over the token alphabet. *)
Lemma encodeText_is_token t token :
  encodeText t = Some token -> is_token token = true.
Proof.
  unfold encodeText.
  destruct (URI.encodeURIComponent t) as [e |]; [| discriminate].
  unfold Base64.btoa.
  destruct (forallb octet_range (toSolidBytes e)) eqn:Hrange;
    [| discriminate].
  intros [= <-]. rewrite strip_replace_encode by assumption.
  now apply token_of_is_token.
Qed.

(* ------------------------------------------------------------------ *)
(** ** The properties of the codec *)

(** C1.  For every valid Unicode string [t] (a string whose surrogate
    code units are all paired; the empty string, emoji, combining
    characters and text with [+], [/], [=] are such strings), encoding
    succeeds and decoding the token gives back exactly [t]:
    [decodeText (encodeText t) = t]. *)
Theorem decode_encode_roundtrip (t : jsstring) :
  well_formed t = true ->
  exists token, encodeText t = Some token /\ decodeText token = Some t.
Proof. exact (roundtrip t). Qed.

Lemma decode_encode_roundtrip_witness :
  exists token,
    encodeText sample = Some token /\ decodeText token = Some sample.
Proof. apply (decode_encode_roundtrip sample). reflexivity. Defined.

Example roundtrip_empty :
  encodeText [] = Some [] /\ decodeText [] = Some [].
Proof. split; reflexivity. Qed.

(** C2.  Whenever [encodeText t] returns a token, every character of
    the token is in [[A-Za-z0-9_-]]: the token holds no [+], no [/] and
    no [=]. *)
Theorem encodeText_token_alphabet (t token : jsstring) :
  encodeText t = Some token ->
  is_token token = true
  /\ ~ In PLUS token /\ ~ In SLASH token /\ ~ In EQUALS token.
Proof.
  intros H. apply encodeText_is_token in H. split; [assumption |].
  unfold is_token in H. rewrite forallb_forall in H.
  repeat split; intros Hin; apply H in Hin; discriminate.
Qed.

Lemma encodeText_token_alphabet_witness :
  is_token (token_of (utf8_of sample)) = true
  /\ ~ In PLUS (token_of (utf8_of sample))
  /\ ~ In SLASH (token_of (utf8_of sample))
  /\ ~ In EQUALS (token_of (utf8_of sample)).
Proof.
  apply (encodeText_token_alphabet sample). reflexivity.
Defined.


(** Variants of a token that are decoded: ["Pz8_"], the token of
    ["???"], written with [/]; the token ["QQ"] of ["A"] with its
    padding, and with four characters of white space put in. *)
Example decodeText_accepts_variants :
  encodeText (js "???") = Some (js "Pz8_")
  /\ decodeText (js "Pz8/") = Some (js "???")
  /\ encodeText (js "A") = Some (js "QQ")
  /\ decodeText (js "QQ==") = Some (js "A")
  /\ decodeText [81; 32; 81; 10; 9; 32] = Some (js "A")
  /\ decodeText (js "QQ ") = None.
Proof. repeat split; reflexivity. Qed.

(** A multi-byte sequence cut short: ["w6k"] is the token of [U+00E9],
    ["w6"] holds the first of its two octets only. *)
Example decodeText_truncated :
  decodeText (js "w6k") = Some [233]
  /\ token_octets (js "w6") = Some [195]
  /\ decodeText (js "w6") = None.
Proof. repeat split; reflexivity. Qed.



(* ------------------------------------------------------------------ *)
(** ** The link router *)

Lemma substring_location_hash w :
  substring_from1 (location_hash w) = fragment w.
Proof. unfold location_hash. now destruct (fragment w). Qed.

(** The three branches of [handleHashChange]. *)
Lemma handleHashChange_empty w :
  fragment w = [] -> handleHashChange w = setText [] (setMode create w).
Proof.
  intros H. unfold handleHashChange.
  now rewrite substring_location_hash, H.
Qed.

Lemma handleHashChange_view w c d :
  fragment w <> [] -> decodeText (fragment w) = Some (c :: d) ->
  handleHashChange w = setMode view (setText (c :: d) w).
Proof.
  intros Hne Hdec. unfold handleHashChange.
  rewrite substring_location_hash.
  destruct (fragment w); [contradiction |]. now rewrite Hdec.
Qed.

Lemma handleHashChange_invalid w :
  fragment w <> [] ->
  decodeText (fragment w) = None \/ decodeText (fragment w) = Some [] ->
  handleHashChange w
  = setMode create
      (set_hashchanges (S (hashchanges w))
         (set_fragment []
            (showToast (js "Invalid or corrupted link") (js "error") w))).
Proof.
  intros Hne Hdec. unfold handleHashChange.
  rewrite substring_location_hash.
  destruct (fragment w) as [| c r] eqn:Hf; [contradiction |].
  assert (Hclear :
    forall w', fragment w' = c :: r ->
      set_location_hash [] w'
      = set_hashchanges (S (hashchanges w')) (set_fragment [] w')).
  { intros w' Hw'. unfold set_location_hash, jsstring_eqb. rewrite Hw'.
    destruct (list_eq_dec Z.eq_dec [] (c :: r)); [discriminate | reflexivity]. }
  destruct Hdec as [-> | ->]; now rewrite Hclear.
Qed.

(** The three cases of a fragment. *)
Lemma fragment_cases f :
  f = []
  \/ (f <> [] /\ exists c d, decodeText f = Some (c :: d))
  \/ (f <> [] /\ (decodeText f = None \/ decodeText f = Some [])).
Proof.
  destruct f as [| a r]; [now left | right].
  destruct (decodeText (a :: r)) as [[| c d] |] eqn:Hdec.
  - right. split; [discriminate | now right].
  - left. split; [discriminate | now exists c, d].
  - right. split; [discriminate | now left].
Qed.

(** A run of the listener queues at most one event. *)
Lemma hashchanges_handleHashChange w :
  (hashchanges w <= hashchanges (handleHashChange w) <= S (hashchanges w))%nat.
Proof.
  destruct (fragment_cases (fragment w))
    as [Hf | [(Hf & c & d & Hdec) | (Hf & Hdec)]].
  - rewrite handleHashChange_empty by assumption. cbn. lia.
  - rewrite (handleHashChange_view w c d) by assumption. cbn. lia.
  - rewrite handleHashChange_invalid by assumption. cbn. lia.
Qed.

(** What a run of the listener keeps. *)
Lemma handleHashChange_keeps w :
  history (handleHashChange w) = history w
  /\ localStorage (handleHashChange w) = localStorage w
  /\ generatedLink (handleHashChange w) = generatedLink w
  /\ darkMode (handleHashChange w) = darkMode w
  /\ showHistory (handleHashChange w) = showHistory w
  /\ showQR (handleHashChange w) = showQR w
  /\ origin (handleHashChange w) = origin w
  /\ pathname (handleHashChange w) = pathname w.
Proof.
  destruct (fragment_cases (fragment w))
    as [Hf | [(Hf & c & d & Hdec) | (Hf & Hdec)]].
  - rewrite handleHashChange_empty by assumption. repeat split.
  - rewrite (handleHashChange_view w c d) by assumption. repeat split.
  - rewrite handleHashChange_invalid by assumption. repeat split.
Qed.

(** ** The event loop *)

Lemma set_hashchanges_same w : set_hashchanges (hashchanges w) w = w.
Proof. now destruct w. Qed.

(** On a state that the listener leaves as it is, whatever the queue,
    the event loop only empties the queue. *)
Lemma event_loop_fixed fuel :
  forall w,
    (forall n, handleHashChange (set_hashchanges n w) = set_hashchanges n w) ->
    (hashchanges w <= fuel)%nat ->
    event_loop fuel w = set_hashchanges 0 w.
Proof.
  induction fuel as [| fuel IH]; intros w Hfix Hlen; cbn [event_loop].
  - replace 0%nat with (hashchanges w) by lia.
    now rewrite set_hashchanges_same.
  - destruct (hashchanges w) as [| n] eqn:Hn.
    + rewrite <- Hn. now rewrite set_hashchanges_same.
    + unfold dispatch. rewrite Hn, Hfix.
      rewrite IH; [reflexivity | | cbn; lia].
      intros m. exact (Hfix m).
Qed.

(** After a run of the listener the event loop comes to rest in the
    state of a second run, with an empty queue: the second run is the
    one that the first calls for when it clears the fragment. *)
Lemma event_loop_handleHashChange fuel w :
  (hashchanges w < fuel)%nat ->
  event_loop fuel (handleHashChange w)
  = set_hashchanges 0 (handleHashChange (handleHashChange w)).
Proof.
  intros Hfuel.
  destruct (fragment_cases (fragment w))
    as [Hf | [(Hf & c & d & Hdec) | (Hf & Hdec)]].
  - rewrite (handleHashChange_empty w) by assumption.
    rewrite (handleHashChange_empty (setText [] (setMode create w)))
      by assumption.
    apply event_loop_fixed; [| cbn; lia].
    intros n. now rewrite handleHashChange_empty.
  - rewrite (handleHashChange_view w c d) by assumption.
    rewrite (handleHashChange_view (setMode view (setText (c :: d) w)) c d)
      by assumption.
    apply event_loop_fixed; [| cbn; lia].
    intros n. now rewrite (handleHashChange_view _ c d).
  - rewrite (handleHashChange_invalid w) by assumption.
    destruct fuel as [| fuel]; [lia |].
    cbn [event_loop setMode hashchanges set_hashchanges]. unfold dispatch.
    cbn [setMode hashchanges set_hashchanges].
    rewrite !handleHashChange_empty by reflexivity.
    rewrite event_loop_fixed; [reflexivity | | cbn; lia].
    intros n. now rewrite handleHashChange_empty.
Qed.

Lemma settle_handleHashChange w :
  settle (handleHashChange w)
  = set_hashchanges 0 (handleHashChange (handleHashChange w)).
Proof.
  unfold settle. apply event_loop_handleHashChange.
  pose proof (hashchanges_handleHashChange w). lia.
Qed.

(** The event loop comes to rest: [settle] leaves no event queued. *)
Lemma settle_quiet w : hashchanges (settle w) = 0%nat.
Proof.
  unfold settle. cbn [event_loop].
  destruct (hashchanges w) as [| n] eqn:Hn; [exact Hn |].
  unfold dispatch. rewrite Hn.
  rewrite event_loop_handleHashChange by (cbn; lia). reflexivity.
Qed.

(** ** The router *)

Lemma route_twice f w :
  route f w
  = set_hashchanges 0
      (handleHashChange (handleHashChange (set_fragment f w))).
Proof. apply settle_handleHashChange. Qed.

Lemma route_empty w :
  route [] w = set_hashchanges 0 (setText [] (setMode create (set_fragment [] w))).
Proof.
  rewrite route_twice. now rewrite !handleHashChange_empty.
Qed.

Lemma route_view f w c d :
  f <> [] -> decodeText f = Some (c :: d) ->
  route f w
  = set_hashchanges 0 (setMode view (setText (c :: d) (set_fragment f w))).
Proof.
  intros Hf Hdec. rewrite route_twice.
  rewrite (handleHashChange_view (set_fragment f w) c d) by assumption.
  now rewrite (handleHashChange_view _ c d).
Qed.

(** On a fragment that [decodeText] rejects (or reads as the empty
    text) the first run signals the error, clears the fragment and
    sets the mode; the run for the cleared fragment empties the
    text. *)
Lemma route_invalid f w :
  f <> [] -> decodeText f = None \/ decodeText f = Some [] ->
  route f w
  = set_hashchanges 0
      (setText []
         (setMode create
            (set_fragment []
               (showToast (js "Invalid or corrupted link") (js "error") w)))).
Proof.
  intros Hf Hdec. rewrite route_twice.
  rewrite (handleHashChange_invalid (set_fragment f w)) by assumption.
  now rewrite handleHashChange_empty.
Qed.

(** What the router keeps, with the runs that follow the first. *)
Lemma route_keeps f w :
  history (route f w) = history w
  /\ localStorage (route f w) = localStorage w
  /\ generatedLink (route f w) = generatedLink w
  /\ darkMode (route f w) = darkMode w
  /\ showHistory (route f w) = showHistory w
  /\ showQR (route f w) = showQR w
  /\ origin (route f w) = origin w
  /\ pathname (route f w) = pathname w.
Proof.
  destruct (fragment_cases f) as [-> | [(Hf & c & d & Hdec) | (Hf & Hdec)]].
  - rewrite route_empty. repeat split.
  - rewrite (route_view f w c d) by assumption. repeat split.
  - rewrite route_invalid by assumption. repeat split.
Qed.

(** Opening the link of a non-empty valid text shows that text in
    [view] mode. *)
Lemma route_token t token w :
  well_formed t = true -> t <> [] -> encodeText t = Some token ->
  route token w
  = set_hashchanges 0 (setMode view (setText t (set_fragment token w))).
Proof.
  intros Hwf Hne Henc.
  destruct (roundtrip t Hwf) as (token' & Henc' & Hdec).
  rewrite Henc in Henc'. injection Henc' as <-.
  destruct t as [| c d]; [contradiction |].
  apply route_view; [| exact Hdec].
  intros ->. discriminate Hdec.
Qed.

(** The two scenarios of the specification: the link of a greeting
    with two CJK characters and an emoji opened, and the corrupted link
    [#%%%invalid] opened at start-up. *)
Example end_to_end_scenario :
  let t := js "Hello, " ++ [19990; 30028] ++ js "! " ++ [55356; 57225] in
  let w := initial [] (js "https://x.test") (js "/app") [] in
  exists token,
    encodeText t = Some token
    /\ mode (route token w) = view /\ text (route token w) = t.
Proof. eexists. repeat split; reflexivity. Qed.

Example corrupted_link_scenario :
  let w := initial (js "%%%invalid") (js "https://x.test") (js "/app") [] in
  exists w',
    launch false w = Returned w'
    /\ mode w' = create /\ fragment w' = [] /\ text w' = []
    /\ toast w'
       = Some {| message := js "Invalid or corrupted link";
                 type := js "error" |}.
Proof. eexists. repeat split; reflexivity. Qed.

(** A fragment without ASCII white space is never read as the empty
    text. *)
Lemma decodeText_fragment_nonempty f :
  f <> [] ->
  forallb (fun c => negb (Base64.is_ascii_whitespace c)) f = true ->
  decodeText f <> Some [].
Proof.
  intros Hf Hplain Hdec. apply decodeText_empty_only in Hdec as [Hws _].
  destruct f as [| c r]; [contradiction |].
  cbn [forallb] in Hplain, Hws.
  apply andb_true_iff in Hplain as [Hc _].
  apply andb_true_iff in Hws as [Hc' _]. rewrite Hc' in Hc. discriminate.
Qed.

(** C3.  The router on a non-empty fragment [f], in any state.
    - If [decodeText] succeeds on [f], the mode is [view] and the
      exposed text is the decoded string (the fragment stays and no
      notification is made).
    - If [decodeText] fails on [f], the error notification is shown,
      the fragment is cleared, the mode is [create] and the exposed
      text is empty: the assignment that clears the fragment has the
      browser dispatch a [hashchange] event, and the run of
      [handleHashChange] for it empties the text.
    - The test [if (decoded)] takes an empty decoded string for a
      failure.  Only a fragment of ASCII white space throughout
      decodes to the empty string, and the address of a browser has
      no such fragment (the URL parser strips or escapes white
      space): on a fragment without white space a decoded string is
      never empty.  Were there such a fragment, the outcome would be
      that of a failure, the exposed text empty as the decoded string
      is.
    - No event is left queued. *)
Theorem route_nonempty_fragment (f : jsstring) (w : World) :
  f <> [] ->
  (forall t, decodeText f = Some t -> t <> [] ->
     mode (route f w) = view /\ text (route f w) = t
     /\ fragment (route f w) = f /\ toast (route f w) = toast w)
  /\ (decodeText f = None \/ decodeText f = Some [] ->
      toast (route f w)
      = Some {| message := js "Invalid or corrupted link";
                type := js "error" |}
      /\ fragment (route f w) = [] /\ mode (route f w) = create
      /\ text (route f w) = [])
  /\ (forallb (fun c => negb (Base64.is_ascii_whitespace c)) f = true ->
      decodeText f <> Some [])
  /\ hashchanges (route f w) = 0%nat.
Proof.
  intros Hf. split; [| split; [| split]].
  - intros [| c d] Hdec Ht; [contradiction |].
    rewrite (route_view f w c d) by assumption. repeat split.
  - intros Hdec. rewrite route_invalid by assumption. repeat split.
  - now apply decodeText_fragment_nonempty.
  - apply settle_quiet.
Qed.

Lemma route_nonempty_fragment_witness :
  let viewing :=
    route (js "aGVsbG8") (initial [] (js "https://x.test") (js "/app") []) in
  let after := route (js "!!!") viewing in
  (mode viewing = view /\ text viewing = js "hello")
  /\ toast after
     = Some {| message := js "Invalid or corrupted link";
               type := js "error" |}
  /\ fragment after = [] /\ mode after = create /\ text after = [].
Proof.
  intros viewing after. split.
  - destruct (proj1 (route_nonempty_fragment (js "aGVsbG8")
                       (initial [] (js "https://x.test") (js "/app") [])
                       ltac:(discriminate))
                (js "hello") eq_refl ltac:(discriminate)) as (Hm & Ht & _).
    split; assumption.
  - apply (proj1 (proj2 (route_nonempty_fragment (js "!!!") viewing
                           ltac:(discriminate)))).
    left. reflexivity.
Defined.

(** C9.  Running the router a second time on the same fragment value
    changes nothing: the state after the second run is the state after
    the first, so the mode and the exposed text are the same both
    times. *)
Theorem route_idempotent (f : jsstring) (w : World) :
  route f (route f w) = route f w
  /\ mode (route f (route f w)) = mode (route f w)
  /\ text (route f (route f w)) = text (route f w).
Proof.
  assert (H : route f (route f w) = route f w).
  { destruct (fragment_cases f)
      as [-> | [(Hf & c & d & Hdec) | (Hf & Hdec)]].
    - now rewrite !route_empty.
    - now rewrite !(route_view f _ c d) by assumption.
    - now rewrite !route_invalid by assumption. }
  now rewrite H.
Qed.

(* ------------------------------------------------------------------ *)
(** ** Link generation and the history store *)

Lemma trimStart_blank t :
  forallb is_whitespace t = true -> trimStart t = [].
Proof.
  induction t as [| c t IH]; cbn [forallb trimStart]; [reflexivity |].
  intros H. apply andb_true_iff in H as [-> Ht]. auto.
Qed.

Lemma trim_blank t : forallb is_whitespace t = true -> trim t = [].
Proof. intros H. unfold trim. now rewrite trimStart_blank. Qed.

(** The blank branch of [handleGenerate]. *)
Lemma handleGenerate_blank now today w :
  nonblank (text w) = false ->
  handleGenerate now today w
  = Returned (showToast (js "Please enter some text first!") (js "error") w).
Proof. unfold nonblank, handleGenerate. now intros ->. Qed.

(** The other branch, on a history that is a list. *)
Lemma handleGenerate_nonblank now today w items :
  nonblank (text w) = true -> history w = VArr items ->
  let link := link_of w (text w) in
  let updated := VArr (append (newHistoryItem now today (text w) link) items) in
  handleGenerate now today w
  = Returned
      (showToast (js "Link generated successfully!") (js "success")
         (localStorage_setItem history_key (JSON.stringify updated)
            (setHistory updated (setGeneratedLink link w)))).
Proof.
  unfold nonblank, handleGenerate, link_of. intros -> ->. reflexivity.
Qed.

Lemma firstn_app_firstn {A} (n : nat) (a b : list A) :
  firstn n (a ++ firstn n b) = firstn n (a ++ b).
Proof.
  rewrite !firstn_app, firstn_firstn. do 2 f_equal. lia.
Qed.

Lemma generate_step i w items :
  mode w = create -> nonblank (entered i) = true ->
  history w = VArr items ->
  history (generate i w) = VArr (append (entry_of w i) items)
  /\ mode (generate i w) = create
  /\ origin (generate i w) = origin w
  /\ pathname (generate i w) = pathname w.
Proof.
  intros Hmode Hi Hhist. unfold generate, onChange. rewrite Hmode.
  rewrite (handleGenerate_nonblank _ _ _ items) by assumption.
  cbn. repeat split; assumption.
Qed.

Lemma entry_of_same_browser w w' i :
  origin w' = origin w -> pathname w' = pathname w ->
  entry_of w' i = entry_of w i.
Proof. unfold entry_of, link_of. now intros -> ->. Qed.

Lemma length_append entry items : (length (append entry items) <= 5)%nat.
Proof. unfold append. apply firstn_le_length. Qed.

(** After any sequence of generations the history holds the five most
    recent entries, the most recent first. *)
Lemma generate_all_history inputs :
  forall w items,
    mode w = create -> history w = VArr items -> (length items <= 5)%nat ->
    forallb (fun i => nonblank (entered i)) inputs = true ->
    history (generate_all inputs w)
    = VArr (firstn 5 (rev (map (entry_of w) inputs) ++ items)).
Proof.
  induction inputs as [| i rest IH]; intros w items Hmode Hhist Hlen Hin.
  - cbn [generate_all fold_left map rev app].
    now rewrite firstn_all2.
  - cbn [forallb] in Hin. apply andb_true_iff in Hin as [Hi Hrest].
    destruct (generate_step i w items Hmode Hi Hhist)
      as (Hhist' & Hmode' & Horg & Hpath).
    cbn [generate_all fold_left]. fold (generate_all rest (generate i w)).
    rewrite (IH _ _ Hmode' Hhist' (length_append _ _) Hrest).
    rewrite (map_ext _ (entry_of w))
      by (intros; now apply entry_of_same_browser).
    unfold append. rewrite firstn_app_firstn.
    cbn [map rev]. now rewrite <- app_assoc.
Qed.

(** C5.  In [create] mode, with a history that is a list:
    - one generation puts the new entry at the front and keeps at most
      five entries (the new one and the first four of the old ones);
    - after any sequence of generations the history is the five most
      recent entries, most recent first;
    - seven generations from an empty history leave exactly the
      entries of the last five, the seventh first, the first two
      evicted. *)
Theorem history_append_bound (w : World) (items : list value) :
  mode w = create -> history w = VArr items ->
  (forall i, nonblank (entered i) = true ->
     history (generate i w) = VArr (entry_of w i :: firstn 4 items)
     /\ (length (entry_of w i :: firstn 4 items) <= 5)%nat)
  /\ (forall inputs,
        (length items <= 5)%nat ->
        forallb (fun i => nonblank (entered i)) inputs = true ->
        history (generate_all inputs w)
        = VArr (firstn 5 (rev (map (entry_of w) inputs) ++ items)))
  /\ (forall i1 i2 i3 i4 i5 i6 i7,
        items = [] ->
        forallb (fun i => nonblank (entered i))
                [i1; i2; i3; i4; i5; i6; i7] = true ->
        history (generate_all [i1; i2; i3; i4; i5; i6; i7] w)
        = VArr [entry_of w i7; entry_of w i6; entry_of w i5;
                entry_of w i4; entry_of w i3]).
Proof.
  intros Hmode Hhist. split; [| split].
  - intros i Hi.
    destruct (generate_step i w items Hmode Hi Hhist) as (-> & _).
    split; [reflexivity |]. apply (length_append (entry_of w i) items).
  - intros inputs Hlen Hin. now apply generate_all_history.
  - intros i1 i2 i3 i4 i5 i6 i7 -> Hin.
    rewrite (generate_all_history _ w []) by (auto; cbn; lia).
    reflexivity.
Qed.

Lemma history_append_bound_witness :
  let w := initial [] (js "https://x.test") (js "/app") [] in
  history (generate_all seven_inputs w)
  = VArr (map (entry_of w) (firstn 5 (rev seven_inputs))).
Proof.
  intros w.
  refine (proj2 (proj2 (history_append_bound w [] _ _)) _ _ _ _ _ _ _ _ _);
    reflexivity.
Defined.

Lemma jsstring_eqb_refl k : jsstring_eqb k k = true.
Proof. unfold jsstring_eqb. now destruct (list_eq_dec Z.eq_dec k k). Qed.


(** C8.  A text that is empty or all white space is turned away at
    the first test of [handleGenerate]: the only change is the error
    notification; the generated link, the history and its stored copy
    are what they were, so no token, no link and no entry came of it. *)
Theorem handleGenerate_rejects_blank (now : Z) (today : jsstring) (w : World) :
  forallb is_whitespace (text w) = true ->
  let w' := world_of (handleGenerate now today w) in
  handleGenerate now today w
  = Returned (showToast (js "Please enter some text first!") (js "error") w)
  /\ generatedLink w' = generatedLink w
  /\ history w' = history w
  /\ localStorage w' = localStorage w.
Proof.
  intros Hblank. cbv zeta. rewrite handleGenerate_blank.
  - repeat split; reflexivity.
  - unfold nonblank. now rewrite trim_blank.
Qed.

Lemma handleGenerate_rejects_blank_witness :
  let w := onChange [32; 9; 10; 160]
             (initial [] (js "https://x.test") (js "/app") []) in
  handleGenerate 1730000000000 (js "11/1/2026") w
  = Returned (showToast (js "Please enter some text first!") (js "error") w).
Proof.
  intros w.
  apply (proj1 (handleGenerate_rejects_blank
                  1730000000000 (js "11/1/2026") w eq_refl)).
Defined.



(** Whenever [encodeText] fails on a non-blank text, [handleGenerate]
    goes on with the text ["null"] in place of the token. *)
Lemma handleGenerate_encode_failure now today w items :
  nonblank (text w) = true -> encodeText (text w) = None ->
  history w = VArr items ->
  let link := origin w ++ pathname w ++ HASH :: js "null" in
  generatedLink (world_of (handleGenerate now today w)) = link
  /\ history (world_of (handleGenerate now today w))
     = VArr (append (newHistoryItem now today (text w) link) items).
Proof.
  intros Hnb Henc Hhist.
  rewrite (handleGenerate_nonblank _ _ _ items) by assumption.
  unfold link_of. rewrite Henc. split; reflexivity.
Qed.

(** C7, evaluated.  The text is one unpaired surrogate, U+D83D: it is
    not blank, and [encodeText] fails on it.  [handleGenerate] does not
    look at the failure: it returns with the link
    ["https://x.test/app#null"], a history entry for that link and the
    notification of success, where the specification has no link, no entry and
    the failure shown to the user. *)
Theorem handleGenerate_ignores_encode_failure :
  let w := onChange [55357]
             (initial [] (js "https://x.test") (js "/app") []) in
  let link := js "https://x.test/app#null" in
  nonblank (text w) = true /\ encodeText (text w) = None
  /\ exists w',
      handleGenerate 1730000000000 (js "11/1/2026") w = Returned w'
      /\ generatedLink w' = link
      /\ history w'
         = VArr [newHistoryItem 1730000000000 (js "11/1/2026") [55357] link]
      /\ toast w'
         = Some {| message := js "Link generated successfully!";
                   type := js "success" |}.
Proof.
  cbv zeta. split; [reflexivity |]. split; [reflexivity |].
  eexists. split; [reflexivity |]. repeat split; reflexivity.
Qed.

(** The history load when nothing, or an empty text, is stored. *)
Lemma loadHistory_absent w :
  getItem history_key (localStorage w) = None
  \/ getItem history_key (localStorage w) = Some [] ->
  loadHistory w = Returned w.
Proof. unfold loadHistory. now intros [-> | ->]. Qed.

(** Whenever the stored text is not empty and no JSON, the load
    throws. *)
Lemma loadHistory_malformed w c s :
  getItem history_key (localStorage w) = Some (c :: s) ->
  JSON.parse (c :: s) = Malformed ->
  loadHistory w = Thrown SyntaxError w.
Proof. unfold loadHistory. now intros -> ->. Qed.

(** C6, evaluated.  The stored history is the text [{], which is no
    JSON: [JSON.parse] throws a SyntaxError, the load throws it on, and
    the start-up effect ends there, before the router ran, where the
    specification has an empty list returned and no failure.  A stored
    [42] is JSON but no list: it becomes the history as it is, and the
    next generation throws a TypeError at the spread. *)
Theorem loadHistory_throws_on_malformed :
  let w := initial (js "aGVsbG8") (js "https://x.test") (js "/app")
             [(history_key, js "{")] in
  let w42 := initial [] (js "https://x.test") (js "/app")
               [(history_key, js "42")] in
  JSON.parse (js "{") = Malformed
  /\ loadHistory w = Thrown SyntaxError w
  /\ startup false w = Thrown SyntaxError w
  /\ loadHistory w42 = Returned (setHistory (VNum (js "42")) w42)
  /\ exists w',
      handleGenerate 1730000000000 (js "11/1/2026")
        (onChange (js "hello") (setHistory (VNum (js "42")) w42))
      = Thrown TypeError w'.
Proof.
  cbv zeta. repeat split; try reflexivity.
  eexists. reflexivity.
Qed.

(* ------------------------------------------------------------------ *)
(** ** [JSON.parse] never runs out of budget *)

Lemma within_map {A B} (f : A -> B) s p :
  within s p -> within s (parsed_map f p).
Proof. now destruct p. Qed.

Lemma within_longer {A} s s' (p : parsed A) :
  within s p -> (length s <= length s')%nat -> within s' p.
Proof. destruct p; cbn; auto. lia. Qed.

Lemma skip_whitespace_length s :
  (length (JSON.skip_whitespace s) <= length s)%nat.
Proof.
  induction s as [| c r IH]; cbn; [lia |].
  destruct (JSON.is_whitespace c); cbn; lia.
Qed.

Lemma string_body_within :
  forall s, within s (JSON.string_body s).
Proof.
  fix IH 1. intros [| c r]; [exact I |]. cbn [JSON.string_body].
  destruct (c =? 34); [cbn; lia |].
  destruct (c <? 32); [exact I |].
  destruct (c =? 92).
  - destruct r as [| e r1]; [exact I |].
    destruct (e =? 117).
    + destruct r1 as [| a [| b [| c' [| d r2]]]]; try exact I.
      destruct (JSON.hex4 a b c' d); [| exact I].
      apply within_map. eapply within_longer; [apply IH | cbn; lia].
    + destruct (JSON.simple_escape e); [| exact I].
      apply within_map. eapply within_longer; [apply IH | cbn; lia].
  - apply within_map. eapply within_longer; [apply IH | cbn; lia].
Qed.

Lemma digits_length s :
  (length (fst (JSON.digits s)) + length (snd (JSON.digits s)) = length s)%nat.
Proof.
  induction s as [| c r IH]; cbn [JSON.digits]; [reflexivity |].
  destruct (is_digit c); [| reflexivity].
  destruct (JSON.digits r) as [ds r']. cbn in *. lia.
Qed.

Lemma sign_length plus s :
  (length (snd (JSON.sign plus s)) <= length s)%nat.
Proof.
  destruct s as [| c r]; cbn [JSON.sign]; [cbn; lia |].
  destruct (_ || _); cbn; lia.
Qed.

Lemma digits_rest s : (length (snd (JSON.digits s)) <= length s)%nat.
Proof. pose proof (digits_length s). lia. Qed.

Lemma integer_part_length s l r :
  JSON.integer_part s = Some (l, r) -> (length r <= length s)%nat.
Proof.
  unfold JSON.integer_part. pose proof (digits_length s) as H.
  destruct (JSON.digits s) as [[| d ds] r0]; [discriminate |].
  cbn [fst snd length] in H.
  destruct (d =? 48); intros [= <- <-]; rewrite ?length_app; lia.
Qed.

Lemma fraction_length s l r :
  JSON.fraction s = Some (l, r) -> (length r <= length s)%nat.
Proof.
  destruct s as [| c s]; cbn [JSON.fraction]; [intros [= <- <-]; lia |].
  destruct (c =? 46); [| intros [= <- <-]; lia].
  pose proof (digits_rest s) as H.
  destruct (JSON.digits s) as [[| f fs] r0]; [discriminate |].
  cbn [snd] in H. intros [= <- <-]. cbn. lia.
Qed.

Lemma exponent_length s l r :
  JSON.exponent s = Some (l, r) -> (length r <= length s)%nat.
Proof.
  destruct s as [| e s]; cbn [JSON.exponent]; [intros [= <- <-]; lia |].
  destruct (_ || _); [| intros [= <- <-]; lia].
  pose proof (sign_length true s) as Hs.
  destruct (JSON.sign true s) as [sg r1]. cbn [snd] in Hs.
  pose proof (digits_rest r1) as Hd.
  destruct (JSON.digits r1) as [[| d ds] r2]; [discriminate |].
  cbn [snd] in Hd. intros [= <- <-]. cbn. lia.
Qed.

Lemma number_within s : within s (JSON.number s).
Proof.
  unfold JSON.number. pose proof (sign_length false s) as Hs.
  destruct (JSON.sign false s) as [sg s1]. cbn [snd] in Hs.
  destruct (JSON.integer_part s1) as [[int s2] |] eqn:Hi; [| exact I].
  destruct (JSON.fraction s2) as [[frac s3] |] eqn:Hf; [| exact I].
  destruct (JSON.exponent s3) as [[ex s4] |] eqn:He; [| exact I].
  apply integer_part_length in Hi. apply fraction_length in Hf.
  apply exponent_length in He. cbn. lia.
Qed.

Lemma keyword_length k :
  forall s r, JSON.keyword k s = Some r -> (length r <= length s)%nat.
Proof.
  induction k as [| a k IH]; intros s r; cbn [JSON.keyword].
  - intros [= ->]. lia.
  - destruct s as [| b s]; [discriminate |].
    destruct (a =? b); [| discriminate].
    intros H. apply IH in H. cbn. lia.
Qed.

Lemma skip_whitespace_cons s c r :
  JSON.skip_whitespace s = c :: r -> (S (length r) <= length s)%nat.
Proof.
  intros H. pose proof (skip_whitespace_length s) as Hlen.
  rewrite H in Hlen. exact Hlen.
Qed.

(** With a budget of twice the length of the input and one more (two
    more for the elements of an array and the members of an object) the
    descent ends before the budget does. *)
Lemma descent_within (n : nat) :
  (forall s, (2 * length s + 1 <= n)%nat -> within s (JSON.parse_value n s))
  /\ (forall s, (2 * length s + 2 <= n)%nat ->
                within s (JSON.parse_elements n s))
  /\ (forall s, (2 * length s + 2 <= n)%nat ->
                within s (JSON.parse_members n s)).
Proof.
  induction n as [| n (IHv & IHe & IHm)];
    [repeat split; intros s H; lia |].
  split; [| split]; intros s Hn.
  - cbn [JSON.parse_value].
    destruct (JSON.skip_whitespace s) as [| c r] eqn:Hs; [exact I |].
    apply skip_whitespace_cons in Hs.
    destruct (c =? 123).
    { destruct (JSON.skip_whitespace r) as [| c' r'] eqn:Hr; [exact I |].
      apply skip_whitespace_cons in Hr.
      destruct (c' =? 125); [cbn; lia |].
      apply within_map. eapply within_longer; [apply IHm |]; cbn; lia. }
    destruct (c =? 91).
    { destruct (JSON.skip_whitespace r) as [| c' r'] eqn:Hr; [exact I |].
      apply skip_whitespace_cons in Hr.
      destruct (c' =? 93); [cbn; lia |].
      apply within_map. eapply within_longer; [apply IHe |]; cbn; lia. }
    destruct (c =? 34).
    { apply within_map.
      eapply within_longer; [apply string_body_within | lia]. }
    destruct (_ || _).
    { apply within_map.
      eapply within_longer; [apply number_within | cbn; lia]. }
    destruct (JSON.keyword (js "null") (c :: r)) as [r' |] eqn:Hnull.
    { apply keyword_length in Hnull. cbn in *. lia. }
    destruct (JSON.keyword (js "true") (c :: r)) as [r' |] eqn:Htrue.
    { apply keyword_length in Htrue. cbn in *. lia. }
    destruct (JSON.keyword (js "false") (c :: r)) as [r' |] eqn:Hfalse;
      [| exact I].
    apply keyword_length in Hfalse. cbn in *. lia.
  - cbn [JSON.parse_elements].
    pose proof (IHv s ltac:(lia)) as Hv.
    destruct (JSON.parse_value n s) as [v r | |]; [| exact I | contradiction].
    cbn [within] in Hv.
    destruct (JSON.skip_whitespace r) as [| c r'] eqn:Hr; [exact I |].
    apply skip_whitespace_cons in Hr.
    destruct (c =? 44).
    { apply within_map. eapply within_longer; [apply IHe |]; lia. }
    destruct (c =? 93); [cbn; lia | exact I].
  - cbn [JSON.parse_members].
    destruct (JSON.skip_whitespace s) as [| q' r0] eqn:Hs; [exact I |].
    apply skip_whitespace_cons in Hs.
    destruct (q' =? 34); [| exact I].
    pose proof (string_body_within r0) as Hk.
    destruct (JSON.string_body r0) as [k r1 | |]; [| exact I | contradiction].
    cbn [within] in Hk.
    destruct (JSON.skip_whitespace r1) as [| colon r2] eqn:Hr1; [exact I |].
    apply skip_whitespace_cons in Hr1.
    destruct (colon =? 58); [| exact I].
    pose proof (IHv r2 ltac:(lia)) as Hv.
    destruct (JSON.parse_value n r2) as [v r3 | |]; [| exact I | contradiction].
    cbn [within] in Hv.
    destruct (JSON.skip_whitespace r3) as [| c r4] eqn:Hr3; [exact I |].
    apply skip_whitespace_cons in Hr3.
    destruct (c =? 44).
    { apply within_map. eapply within_longer; [apply IHm |]; lia. }
    destruct (c =? 125); [cbn; lia | exact I].
Qed.

(** [JSON.parse] returns a value or throws a SyntaxError: its budget
    is never spent. *)
Lemma parse_not_exhausted text : JSON.parse text <> Exhausted.
Proof.
  unfold JSON.parse.
  pose proof (proj1 (descent_within (JSON.budget text)) text) as H.
  unfold JSON.budget in H. specialize (H ltac:(lia)).
  destruct (JSON.parse_value _ text) as [v r | |];
    [| discriminate | contradiction].
  destruct (JSON.skip_whitespace r); discriminate.
Qed.

(* ================================================================== *)
(** * Part III: further properties of the code *)
(* ================================================================== *)

(** ** When [encodeText] fails *)

Lemma encodeURIComponent_ill_formed :
  forall (n : nat) (t : jsstring),
    (length t <= n)%nat -> is_jsstring t = true -> well_formed t = false ->
    URI.encodeURIComponent t = None.
Proof.
  induction n as [| n IH]; intros t Hlen Hjs Hwf.
  { destruct t; [discriminate | cbn in Hlen; lia]. }
  destruct t as [| c r]; [discriminate |].
  cbn [is_jsstring forallb] in Hjs. apply andb_true_iff in Hjs as [Hc Hr].
  cbn [length] in Hlen. cbn [URI.encodeURIComponent well_formed] in *.
  destruct (URI.unescaped c) eqn:Hun.
  - destruct (unescaped_ascii c Hun) as (_ & _ & Hl & Ht).
    rewrite Hl, Ht, Hc in Hwf. cbn [andb] in Hwf.
    rewrite (IH r); auto. lia.
  - destruct (is_leading_surrogate c).
    + destruct r as [| d r']; [reflexivity |].
      destruct (is_trailing_surrogate d); [| reflexivity].
      cbn [andb] in Hwf. cbn [forallb] in Hr.
      apply andb_true_iff in Hr as [_ Hr']. cbn [length] in Hlen.
      rewrite (IH r'); auto. lia.
    + destruct (is_trailing_surrogate c); [reflexivity |].
      rewrite Hc in Hwf. cbn [andb] in Hwf. rewrite (IH r); auto. lia.
Qed.

(** X1.  On a JavaScript string [encodeText] returns [null] exactly
    when the string has a surrogate code unit that is not part of a
    pair; on every other string it returns a token. *)
Theorem encodeText_fails_iff (t : jsstring) :
  is_jsstring t = true ->
  (encodeText t = None <-> well_formed t = false).
Proof.
  intros Hjs. split.
  - intros Hnone. destruct (well_formed t) eqn:Hwf; [| reflexivity].
    rewrite encodeText_well_formed in Hnone by assumption. discriminate.
  - intros Hwf. unfold encodeText.
    now rewrite (encodeURIComponent_ill_formed (length t) t).
Qed.

Lemma encodeText_fails_iff_witness :
  encodeText (js "ab" ++ [56832]) = None
  <-> well_formed (js "ab" ++ [56832]) = false.
Proof. apply (encodeText_fails_iff (js "ab" ++ [56832])). reflexivity. Defined.

(** X2.  Two valid strings with the same token are the same string:
    different texts never share a link. *)
Theorem encodeText_injective (t1 t2 : jsstring) :
  well_formed t1 = true -> well_formed t2 = true ->
  encodeText t1 = encodeText t2 -> t1 = t2.
Proof.
  intros H1 H2 Heq.
  destruct (roundtrip t1 H1) as (k1 & He1 & Hd1).
  destruct (roundtrip t2 H2) as (k2 & He2 & Hd2).
  rewrite He1, He2 in Heq. injection Heq as <-.
  rewrite Hd1 in Hd2. now injection Hd2.
Qed.

Lemma encodeText_injective_witness :
  sample = js "a+b/c==" ++ [101; 769; 19990; 30028] ++ [55356; 57225].
Proof.
  apply (encodeText_injective sample); reflexivity.
Defined.

(** ** The length of a token *)

Lemma length_sextets bs :
  Z.of_nat (length (sextets bs)) = (4 * Z.of_nat (length bs) + 2) / 3.
Proof.
  induction bs as [| a | a b | a b c r IH] using list_ind3;
    try reflexivity.
  cbn [sextets length]. rewrite !Nat2Z.inj_succ, IH. div_mod.
Qed.

Lemma length_utf8 cp :
  0 <= cp < 1114112 ->
  (1 <= length (Unicode.utf8 cp) <= 4)%nat
  /\ (cp < 65536 -> (length (Unicode.utf8 cp) <= 3)%nat)
  /\ (65536 <= cp -> length (Unicode.utf8 cp) = 4%nat).
Proof.
  intros H. unfold Unicode.utf8.
  destruct (Z.ltb_spec cp 128); [cbn; lia |].
  destruct (Z.ltb_spec cp 2048); [cbn; lia |].
  destruct (Z.ltb_spec cp 65536); cbn; lia.
Qed.

Lemma length_utf8_of :
  forall t, well_formed t = true ->
  (length t <= length (utf8_of t) <= 3 * length t)%nat.
Proof.
  apply well_formed_ind; [cbn; lia | |].
  - intros c r Hl Ht Hc Hr IH. cbn [utf8_of]. rewrite Hl, length_app.
    assert (Hrange : 0 <= c < 65536) by (unfold_classes; bool_to_Z; lia).
    destruct (length_utf8 c) as (Hone & Hthree & _); [lia |].
    specialize (Hthree ltac:(lia)). cbn [length]. lia.
  - intros c d r Hc Hd Hr IH. cbn [utf8_of]. rewrite Hc, length_app.
    pose proof (pair_range c d Hc Hd) as Hrange.
    destruct (length_utf8 (Unicode.pair_to_code_point c d))
      as (_ & _ & Hfour); [lia |].
    rewrite Hfour by lia. cbn [length]. lia.
Qed.

(** X3.  The token of a valid string of [n] UTF-8 octets has
    [ceil (4 n / 3)] characters, and [n] is between one and three
    times the length of the string: a token is never longer than four
    characters for each code unit of the text. *)
Theorem token_length (t token : jsstring) :
  well_formed t = true -> encodeText t = Some token ->
  let n := Z.of_nat (length (utf8_of t)) in
  Z.of_nat (length token) = (4 * n + 2) / 3
  /\ Z.of_nat (length t) <= n <= 3 * Z.of_nat (length t)
  /\ Z.of_nat (length token) <= 4 * Z.of_nat (length t).
Proof.
  intros Hwf Henc. cbv zeta.
  rewrite encodeText_well_formed in Henc by assumption.
  injection Henc as <-. unfold token_of. rewrite !length_map, length_sextets.
  pose proof (length_utf8_of t Hwf) as Hlen.
  split; [reflexivity |]. split; [lia |]. div_mod.
Qed.

Lemma token_length_witness :
  Z.of_nat (length (token_of (utf8_of sample)))
  = (4 * Z.of_nat (length (utf8_of sample)) + 2) / 3.
Proof.
  apply (token_length sample (token_of (utf8_of sample))); reflexivity.
Defined.

(** ** Tokens that [decodeText] reads although [encodeText] never
    writes them *)

Lemma url_unsafe_plain c :
  Base64.is_base64_char c = true \/ c = EQUALS
  \/ Base64.is_ascii_whitespace c = true ->
  url_unsafe c = c.
Proof.
  intros H. unfold url_unsafe. unfold_classes.
  destruct H as [H | [-> | H]]; [| reflexivity |];
    bool_to_Z; decide_tests.
Qed.

Lemma map_url_unsafe_encode bs :
  forallb octet_range bs = true ->
  map url_unsafe (Base64.encode bs) = Base64.encode bs.
Proof.
  intros H. apply sextets_range in H. rewrite encode_shape, map_app.
  rewrite map_repeat. change (url_unsafe EQUALS) with EQUALS. f_equal.
  induction H; cbn [map]; [reflexivity |].
  rewrite IHForall, url_unsafe_plain; [reflexivity |].
  left. now apply char_is_base64.
Qed.

Lemma length_encode_mod4 bs :
  Z.of_nat (length (Base64.encode bs)) mod 4 = 0.
Proof.
  rewrite encode_shape, length_app, length_map, repeat_length, Nat2Z.inj_add.
  apply length_sextets_mod4.
Qed.

(** X4.  [decodeText] also reads the standard, padded base64 of a
    text, which is what [btoa] hands to the replacements in
    [encodeText]: the replacements are not needed for a link to
    open. *)
Theorem decodeText_standard_base64 (t : jsstring) :
  well_formed t = true ->
  decodeText (Base64.encode (utf8_of t)) = Some t.
Proof.
  intros Hwf. pose proof (utf8_of_range t Hwf) as Hrange.
  unfold decodeText. rewrite replace_url_unsafe, map_url_unsafe_encode
    by assumption.
  unfold padding. rewrite length_encode_mod4.
  change (Z.to_nat ((4 - 0) mod 4)) with 0%nat. cbn [repeat].
  rewrite app_nil_r, atob_btoa by assumption.
  now apply decodeURIComponent_utf8_of.
Qed.

Lemma decodeText_standard_base64_witness :
  decodeText (Base64.encode (utf8_of sample)) = Some sample.
Proof. apply (decodeText_standard_base64 sample). reflexivity. Defined.

(** ** When [decodeText] returns the empty string *)

(** X5.  [decodeText] returns the empty string exactly for the tokens
    that are ASCII white space throughout and whose length is a
    multiple of four, the empty token among them. *)
Theorem decodeText_empty_iff (token : jsstring) :
  decodeText token = Some []
  <-> forallb Base64.is_ascii_whitespace token = true
      /\ Z.of_nat (length token) mod 4 = 0.
Proof.
  split.
  - apply decodeText_empty_only.
  - intros [Hws Hlen]. now apply decodeText_whitespace_empty.
Qed.

Lemma decodeText_empty_iff_witness : decodeText (js "    ") = Some [].
Proof.
  apply (proj2 (decodeText_empty_iff (js "    "))). split; reflexivity.
Defined.

(** ** The router, the generator and the reset together *)

(** X6.  For a fragment without ASCII white space the router goes to
    [view] mode exactly when the fragment is not empty and
    [decodeText] does not fail on it, and the text is then the decoded
    text: the test [if (decoded)], which takes an empty decoded text
    for a failure, never turns such a link away. *)
Theorem route_view_iff (f : jsstring) (w : World) :
  forallb (fun c => negb (Base64.is_ascii_whitespace c)) f = true ->
  (mode (route f w) = view <-> f <> [] /\ decodeText f <> None)
  /\ (forall s, f <> [] -> decodeText f = Some s ->
        mode (route f w) = view /\ text (route f w) = s).
Proof.
  intros Hplain.
  destruct (fragment_cases f) as [-> | [(Hf & c & d & Hdec) | (Hf & Hdec)]].
  - rewrite route_empty. split; [| intros s Hf; contradiction].
    split; [discriminate | intros [Hf _]; contradiction].
  - rewrite (route_view f w c d) by assumption. rewrite Hdec.
    split; [| intros s' _ [= <-]; split; reflexivity].
    split; [intros _; split; [assumption | discriminate] | reflexivity].
  - destruct Hdec as [Hdec | Hdec];
      [| destruct (decodeText_fragment_nonempty f Hf Hplain Hdec)].
    rewrite route_invalid by auto. rewrite Hdec.
    split; [| discriminate].
    split; [discriminate | intros [_ H]; contradiction].
Qed.

Lemma route_view_iff_witness :
  let w := initial [] (js "https://x.test") (js "/app") [] in
  mode (route (js "aGVsbG8") w) = view
  /\ text (route (js "aGVsbG8") w) = js "hello".
Proof.
  intros w.
  apply (proj2 (route_view_iff (js "aGVsbG8") w eq_refl) (js "hello"));
    [discriminate | reflexivity].
Defined.

(** X7.  The router never touches the history, its stored copy, the
    generated link, the theme, the drawers, the origin or the path:
    opening a link, valid or not, loses nothing of them.  This holds
    of one run of [handleHashChange] and of the router with the runs
    that follow. *)
Theorem route_frame (f : jsstring) (w : World) :
  (history (route f w) = history w
   /\ localStorage (route f w) = localStorage w
   /\ generatedLink (route f w) = generatedLink w
   /\ darkMode (route f w) = darkMode w
   /\ showHistory (route f w) = showHistory w
   /\ showQR (route f w) = showQR w
   /\ origin (route f w) = origin w
   /\ pathname (route f w) = pathname w)
  /\ (history (handleHashChange w) = history w
      /\ localStorage (handleHashChange w) = localStorage w
      /\ generatedLink (handleHashChange w) = generatedLink w
      /\ darkMode (handleHashChange w) = darkMode w
      /\ showHistory (handleHashChange w) = showHistory w
      /\ showQR (handleHashChange w) = showQR w
      /\ origin (handleHashChange w) = origin w
      /\ pathname (handleHashChange w) = pathname w).
Proof.
  split; [apply route_keeps | apply handleHashChange_keeps].
Qed.

Lemma url_fragment_app a b :
  ~ In HASH a -> url_fragment (a ++ HASH :: b) = b.
Proof.
  induction a as [| c a IH]; cbn [app url_fragment In]; intros H.
  - reflexivity.
  - destruct (Z.eqb_spec c HASH) as [-> | _]; [tauto |]. apply IH. tauto.
Qed.

Lemma nonblank_nonempty t : nonblank t = true -> t <> [].
Proof. intros H ->. discriminate. Qed.

(** The parts of the state [handleGenerate] keeps on every path. *)
Lemma handleGenerate_keeps now today w :
  let w' := world_of (handleGenerate now today w) in
  mode w' = mode w /\ text w' = text w /\ fragment w' = fragment w
  /\ origin w' = origin w /\ pathname w' = pathname w.
Proof.
  unfold handleGenerate.
  destruct (negb (truthy (trim (text w)))); [repeat split |].
  destruct (spread (history w)); repeat split.
Qed.

(** X8.  The link that [handleGenerate] makes for a valid, non-blank
    text opens that text: when the origin and the path hold no [#],
    the fragment of the generated link sends the router, in any
    session, to [view] mode with exactly the text that was in the
    field. *)
Theorem generated_link_opens (now : Z) (today : jsstring) (w w2 : World) :
  nonblank (text w) = true -> well_formed (text w) = true ->
  ~ In HASH (origin w) -> ~ In HASH (pathname w) ->
  let link := generatedLink (world_of (handleGenerate now today w)) in
  mode (route (url_fragment link) w2) = view
  /\ text (route (url_fragment link) w2) = text w.
Proof.
  intros Hnb Hwf Horg Hpath. cbv zeta.
  assert (Hlink : generatedLink (world_of (handleGenerate now today w))
                  = link_of w (text w)).
  { unfold handleGenerate. unfold nonblank in Hnb. rewrite Hnb. cbn [negb].
    destruct (spread (history w)); reflexivity. }
  rewrite Hlink. unfold link_of.
  rewrite app_assoc, url_fragment_app
    by (intros H; apply in_app_or in H; tauto).
  rewrite encodeText_well_formed by assumption. cbn [template_string].
  rewrite (route_token (text w) _ w2 Hwf (nonblank_nonempty _ Hnb)
             (encodeText_well_formed _ Hwf)).
  split; reflexivity.
Qed.

Lemma generated_link_opens_witness :
  let w := onChange sample (initial [] (js "https://x.test") (js "/app") []) in
  let w2 := initial [] (js "https://x.test") (js "/app") [] in
  let link :=
    generatedLink (world_of (handleGenerate 1730000000000 (js "11/1/2026") w)) in
  mode (route (url_fragment link) w2) = view
  /\ text (route (url_fragment link) w2) = sample.
Proof.
  intros w w2.
  apply (generated_link_opens 1730000000000 (js "11/1/2026") w w2);
    try reflexivity; cbn; intuition discriminate.
Defined.

Lemma set_fragment_same w : set_fragment (fragment w) w = w.
Proof. now destruct w. Qed.

Lemma loadHistory_fragment w w1 :
  loadHistory w = Returned w1 -> fragment w1 = fragment w.
Proof.
  unfold loadHistory.
  destruct (getItem history_key (localStorage w)) as [[| c s] |];
    try (now intros [= <-]).
  destruct (JSON.parse (c :: s)); try discriminate. now intros [= <-].
Qed.

(** X21.  The state in which the component is mounted is the one the
    router gives for the fragment that the address has at start-up:
    when the start-up effect returns, it has set the theme, loaded the
    history, and what follows is the router run on that fragment, as
    for a later change of the fragment. *)
Theorem launch_routes (prefers_dark : bool) (w w' : World) :
  launch prefers_dark w = Returned w' ->
  exists w1,
    loadHistory (if prefers_dark then setDarkMode true w else w)
    = Returned w1
    /\ w' = route (fragment w) w1.
Proof.
  unfold launch, startup. intros Hlaunch.
  destruct (loadHistory _) as [w1 | e w1] eqn:Hload; [| discriminate].
  injection Hlaunch as <-. exists w1. split; [reflexivity |].
  apply loadHistory_fragment in Hload.
  assert (Hf : fragment w1 = fragment w) by (now destruct prefers_dark).
  unfold route. now rewrite <- Hf, set_fragment_same.
Qed.

Lemma launch_routes_witness :
  let w := initial (js "aGVsbG8") (js "https://x.test") (js "/app") [] in
  exists w1,
    loadHistory (setDarkMode true w) = Returned w1
    /\ route (js "aGVsbG8") (setDarkMode true w) = route (js "aGVsbG8") w1.
Proof.
  intros w.
  destruct (launch_routes true w (route (js "aGVsbG8") (setDarkMode true w))
              eq_refl) as (w1 & Hload & Hroute).
  exists w1. split; assumption.
Defined.

(** X9.  After [resetApp] the state is what the router gives for the
    address it left: a run of [handleHashChange] changes nothing, a
    second reset changes nothing, and the history with its stored
    copy is what it was. *)
Theorem resetApp_settled (w : World) :
  handleHashChange (resetApp w) = resetApp w
  /\ resetApp (resetApp w) = resetApp w
  /\ history (resetApp w) = history w
  /\ localStorage (resetApp w) = localStorage w.
Proof. repeat split. Qed.

(** ** What every run of the component keeps *)

Lemma handleHashChange_view_shows w : view_shows_fragment (handleHashChange w).
Proof.
  unfold view_shows_fragment, handleHashChange.
  rewrite substring_location_hash.
  destruct (fragment w) as [| c r] eqn:Hf; [discriminate |].
  destruct (decodeText (c :: r)) as [[| d s] |] eqn:Hdec; try discriminate.
  intros _. cbn. rewrite Hf. repeat split; try discriminate. exact Hdec.
Qed.

Lemma step_view_shows e w :
  view_shows_fragment w -> view_shows_fragment (step e w).
Proof.
  intros Hw. destruct e as [f | v | t d | | | | | | | | label |]; cbn [step].
  - rewrite route_twice. exact (handleHashChange_view_shows _).
  - unfold onChange. destruct (mode w) eqn:Hm; [| exact Hw].
    intros H. cbn in H. congruence.
  - destruct (mode w) eqn:Hm; [| exact Hw].
    destruct (nonblank (text w)); [| exact Hw].
    destruct (handleGenerate_keeps t d w) as (Hm' & _).
    intros H. congruence.
  - destruct (mode w) eqn:Hm; [| exact Hw].
    destruct (nonblank (text w)); [| exact Hw].
    intros H. cbn in H. congruence.
  - destruct (mode w) eqn:Hm; [exact Hw |]. discriminate.
  - exact Hw.
  - destruct (showHistory w); exact Hw.
  - exact Hw.
  - destruct (mode w) eqn:Hm; [| exact Hw].
    destruct (truthy (generatedLink w)); [| exact Hw].
    intros H. cbn in H. congruence.
  - destruct (toast w); exact Hw.
  - exact Hw.
  - exact Hw.
Qed.

(** X10.  From the mounting of the component on, through any events,
    whenever the mode is [view] the text shown is not empty and is
    exactly what [decodeText] gives for the fragment in the address. *)
Theorem view_always_shows_fragment
    (prefers_dark : bool) (w0 w : World) (events : list Event) :
  launch prefers_dark w0 = Returned w ->
  view_shows_fragment (run events w).
Proof.
  intros Hstart.
  assert (Hw : view_shows_fragment w).
  { unfold launch, startup in Hstart.
    destruct (loadHistory _) as [w' | e w']; [| discriminate].
    injection Hstart as <-. rewrite settle_handleHashChange.
    exact (handleHashChange_view_shows _). }
  clear Hstart. revert w Hw.
  induction events as [| e events IH]; intros w Hw; [exact Hw |].
  cbn [run fold_left]. apply IH. now apply step_view_shows.
Qed.

Lemma view_always_shows_fragment_witness :
  let w0 := initial (js "aGVsbG8") (js "https://x.test") (js "/app") [] in
  view_shows_fragment
    (run [ClickReset; Change (js "x"); HashChange (js "aGVsbG8"); ToggleTheme]
         (settle (handleHashChange w0))).
Proof.
  intros w0.
  apply (view_always_shows_fragment false w0 (settle (handleHashChange w0))).
  reflexivity.
Defined.

Lemma handleGenerate_history now today w items :
  history w = VArr items ->
  exists items',
    history (world_of (handleGenerate now today w)) = VArr items'
    /\ (length items' <= Nat.max 5 (length items))%nat
    /\ (nonblank (text w) = true -> (length items' <= 5)%nat).
Proof.
  intros Hhist. destruct (nonblank (text w)) eqn:Hnb.
  - rewrite (handleGenerate_nonblank _ _ _ items) by assumption.
    eexists. split; [reflexivity |].
    pose proof (length_append (newHistoryItem now today (text w)
                                 (link_of w (text w))) items).
    split; [lia | auto].
  - rewrite handleGenerate_blank by assumption.
    exists items. split; [exact Hhist |]. split; [lia | discriminate].
Qed.

Lemma step_history_bounded e w :
  history_bounded w -> history_bounded (step e w).
Proof.
  intros (items & Hhist & Hlen).
  destruct e as [f | v | t d | | | | | | | | label |]; cbn [step].
  - exists items. split; [| assumption].
    destruct (route_keeps f w) as [-> _]. exact Hhist.
  - unfold onChange. destruct (mode w); exists items; auto.
  - destruct (mode w); [| exists items; auto].
    destruct (nonblank (text w)) eqn:Hnb; [| exists items; auto].
    destruct (handleGenerate_history t d w items Hhist)
      as (items' & Hh & _ & Hbound).
    exists items'. auto.
  - destruct (mode w); [| exists items; auto].
    destruct (nonblank (text w)); exists items; auto.
  - destruct (mode w); exists items; auto.
  - exists items; auto.
  - destruct (showHistory w); exists items; auto.
  - exists items; auto.
  - destruct (mode w); [| exists items; auto].
    destruct (truthy (generatedLink w)); exists items; auto.
  - destruct (toast w); exists items; auto.
  - exists items; auto.
  - exists items; auto.
Qed.

Lemma run_history_bounded events :
  forall w, history_bounded w -> history_bounded (run events w).
Proof.
  induction events as [| e events IH]; intros w Hw; [exact Hw |].
  cbn [run fold_left]. apply IH. now apply step_history_bounded.
Qed.

(** Start-up with nothing stored (or an empty text stored) returns:
    the history stays the empty list and the router has run. *)
Lemma startup_absent prefers_dark w :
  getItem history_key (localStorage w) = None
  \/ getItem history_key (localStorage w) = Some [] ->
  startup prefers_dark w
  = Returned
      (handleHashChange (if prefers_dark then setDarkMode true w else w)).
Proof.
  intros H. unfold startup. rewrite loadHistory_absent; [reflexivity |].
  now destruct prefers_dark.
Qed.

Lemma launch_absent prefers_dark w :
  getItem history_key (localStorage w) = None
  \/ getItem history_key (localStorage w) = Some [] ->
  launch prefers_dark w
  = Returned
      (settle
         (handleHashChange (if prefers_dark then setDarkMode true w else w))).
Proof.
  intros H. unfold launch. now rewrite startup_absent.
Qed.

(** What the event loop keeps after a run of the listener. *)
Lemma settle_handleHashChange_keeps w :
  let w' := settle (handleHashChange w) in
  history w' = history w /\ localStorage w' = localStorage w
  /\ origin w' = origin w /\ pathname w' = pathname w.
Proof.
  cbv zeta. rewrite settle_handleHashChange.
  cbn [set_hashchanges history localStorage origin pathname].
  destruct (handleHashChange_keeps (handleHashChange w))
    as (-> & -> & _ & _ & _ & _ & -> & ->).
  destruct (handleHashChange_keeps w)
    as (-> & -> & _ & _ & _ & _ & -> & ->).
  repeat split.
Qed.

(** X11.  When nothing (or an empty text) is stored at start-up, the
    component is mounted (the start-up effect returns), and from then
    on, through any events, the history is a list of at most five
    entries. *)
Theorem history_always_bounded
    (prefers_dark : bool) (frag org path : jsstring)
    (store : list (jsstring * jsstring)) :
  getItem history_key store = None \/ getItem history_key store = Some [] ->
  exists w,
    launch prefers_dark (initial frag org path store) = Returned w
    /\ forall events, history_bounded (run events w).
Proof.
  intros Hstore. eexists. split.
  - apply launch_absent. exact Hstore.
  - intros events. apply run_history_bounded.
    exists []. split; [| cbn; lia].
    destruct (settle_handleHashChange_keeps
                (if prefers_dark
                 then setDarkMode true (initial frag org path store)
                 else initial frag org path store)) as [-> _].
    now destruct prefers_dark.
Qed.

Lemma history_always_bounded_witness :
  exists w,
    launch true (initial (js "aGVsbG8") (js "https://x.test") (js "/app") [])
    = Returned w
    /\ forall events, history_bounded (run events w).
Proof.
  apply (history_always_bounded true (js "aGVsbG8") (js "https://x.test")
           (js "/app") []).
  left. reflexivity.
Defined.

(** ** Words and reading time *)

Lemma trimStart_split t :
  exists ws,
    t = ws ++ trimStart t /\ forallb is_whitespace ws = true
    /\ match trimStart t with
       | [] => True
       | c :: _ => is_whitespace c = false
       end.
Proof.
  induction t as [| c r (ws & Heq & Hws & Hhead)].
  - exists []. repeat split.
  - cbn [trimStart]. destruct (is_whitespace c) eqn:Hc.
    + exists (c :: ws). cbn [app forallb]. rewrite Hc, Hws, <- Heq.
      repeat split. exact Hhead.
    + exists []. repeat split. exact Hc.
Qed.

Lemma trimEnd_split u :
  exists ws,
    u = trimEnd u ++ ws /\ forallb is_whitespace ws = true
    /\ ends_in_run false (trimEnd u) = false.
Proof.
  destruct (trimStart_split (rev u)) as (ws & Heq & Hws & Hhead).
  exists (rev ws). unfold trimEnd. split; [| split].
  - rewrite <- rev_app_distr, <- Heq. now rewrite rev_involutive.
  - rewrite forallb_forall in *. intros c Hc. apply Hws. now apply in_rev.
  - destruct (trimStart (rev u)) as [| c x]; [reflexivity |].
    cbn [rev].
    assert (Hend : forall l b, ends_in_run b (l ++ [c]) = is_whitespace c)
      by (induction l as [| a l IH]; intros b; cbn [app ends_in_run]; auto).
    now rewrite Hend.
Qed.

Lemma word_starts_blank ws b :
  forallb is_whitespace ws = true -> word_starts b ws = 0%nat.
Proof.
  revert b. induction ws as [| c r IH]; intros b; cbn; [reflexivity |].
  intros H. apply andb_true_iff in H as [-> Hr]. auto.
Qed.

Lemma word_starts_app_blank a ws b :
  forallb is_whitespace ws = true ->
  word_starts b (a ++ ws) = word_starts b a.
Proof.
  intros Hws. revert b. induction a as [| c r IH]; intros b; cbn [app].
  - now rewrite word_starts_blank.
  - cbn [word_starts]. destruct (is_whitespace c); now rewrite IH.
Qed.

Lemma word_starts_blank_app ws a :
  forallb is_whitespace ws = true ->
  word_starts true (ws ++ a) = word_starts true a.
Proof.
  induction ws as [| c r IH]; cbn; [reflexivity |].
  intros H. apply andb_true_iff in H as [-> Hr]. auto.
Qed.

(** Trimming does not change the number of words. *)
Lemma word_starts_trim t : word_starts true (trim t) = word_starts true t.
Proof.
  unfold trim.
  destruct (trimStart_split t) as (ws & Heq & Hws & _).
  destruct (trimEnd_split (trimStart t)) as (ws' & Heq' & Hws' & _).
  rewrite Heq at 2. rewrite word_starts_blank_app by assumption.
  rewrite Heq' at 2. now rewrite word_starts_app_blank.
Qed.

(** The pieces of [split] counted through the words. *)
Lemma length_split_from s :
  forall piece in_run,
    length (split_from piece in_run s)
    = (word_starts in_run s + (if in_run then 0 else 1)
       + (if ends_in_run in_run s then 1 else 0))%nat.
Proof.
  induction s as [| c r IH]; intros piece in_run; cbn.
  - destruct in_run; reflexivity.
  - destruct (is_whitespace c), in_run; cbn [length]; rewrite IH; lia.
Qed.

Lemma trim_head t :
  match trim t with
  | [] => forallb is_whitespace t = true
  | c :: _ => is_whitespace c = false
  end.
Proof.
  unfold trim.
  destruct (trimStart_split t) as (ws & Heq & Hws & Hhead).
  destruct (trimEnd_split (trimStart t)) as (ws' & Heq' & Hws' & _).
  destruct (trimStart t) as [| c x] eqn:Hs.
  - cbn. rewrite Heq, app_nil_r. exact Hws.
  - destruct (trimEnd (c :: x)) as [| c' y].
    + cbn [app] in Heq'. rewrite <- Heq' in Hws'. cbn [forallb] in Hws'.
      rewrite Hhead in Hws'. discriminate.
    + cbn [app] in Heq'. now injection Heq' as <- _.
Qed.

Lemma length_split_trim t c r :
  trim t = c :: r ->
  length (split_whitespace (trim t)) = word_starts true t.
Proof.
  intros Ht. unfold split_whitespace. rewrite length_split_from.
  rewrite <- (word_starts_trim t).
  pose proof (trim_head t) as Hhead. rewrite Ht in Hhead.
  assert (Hend : ends_in_run false (trim t) = false).
  { unfold trim. now destruct (trimEnd_split (trimStart t)) as (_ & _ & _ & H). }
  rewrite Hend, Ht. cbn [word_starts]. rewrite Hhead. lia.
Qed.

Lemma word_starts_le b s : (word_starts b s <= length s)%nat.
Proof.
  revert b. induction s as [| c r IH]; intros b; cbn; [lia |].
  destruct (is_whitespace c).
  - specialize (IH true). lia.
  - specialize (IH false). destruct b; lia.
Qed.

(** X12.  [wordCount] is the number of words of the text, the maximal
    runs of characters that are no white space; it is zero exactly for
    a text that is empty or white space throughout, and it never
    exceeds [charCount]. *)
Theorem wordCount_words (t : jsstring) :
  wordCount t = Z.of_nat (word_starts true t)
  /\ (wordCount t = 0 <-> forallb is_whitespace t = true)
  /\ 0 <= wordCount t <= charCount t.
Proof.
  assert (Hcount : wordCount t = Z.of_nat (word_starts true t)).
  { unfold wordCount. pose proof (trim_head t) as Hhead.
    destruct (trim t) as [| c r] eqn:Ht.
    - now rewrite word_starts_blank.
    - now rewrite <- Ht, (length_split_trim t c r). }
  split; [exact Hcount |]. split.
  - split.
    + intros Hzero. pose proof (trim_head t) as Hhead.
      destruct (trim t) as [| c r] eqn:Ht; [exact Hhead |].
      rewrite Hcount, <- word_starts_trim, Ht in Hzero.
      cbn [word_starts] in Hzero. rewrite Hhead in Hzero. lia.
    + intros Hblank. rewrite Hcount. now rewrite word_starts_blank.
  - rewrite Hcount. unfold charCount.
    pose proof (word_starts_le true t). lia.
Qed.

(** X13.  The reading time is never below one minute: a blank text,
    which has no word, is counted as one word and reads
    ["1 min read"], as does every text of up to 225 words; beyond
    that the minutes are the words divided by 225, rounded up. *)
Theorem calculateReadingTime_minutes (t : jsstring) :
  calculateReadingTime t
  = decimal (ceil_div (Z.max 1 (wordCount t)) 225) ++ js " min read"
  /\ 1 <= ceil_div (Z.max 1 (wordCount t)) 225
  /\ (wordCount t <= 225 -> calculateReadingTime t = js "1 min read").
Proof.
  assert (Hwords : Z.of_nat (length (split_whitespace (trim t)))
                   = Z.max 1 (wordCount t)).
  { unfold wordCount. destruct (trim t) as [| c r] eqn:Ht; [reflexivity |].
    rewrite <- Ht, (length_split_trim t c r Ht).
    pose proof (trim_head t) as Hhead. rewrite Ht in Hhead.
    assert (1 <= word_starts true t)%nat; [| lia].
    rewrite <- word_starts_trim, Ht. cbn [word_starts]. rewrite Hhead. lia. }
  unfold calculateReadingTime. cbv zeta. rewrite Hwords.
  split; [reflexivity |]. split.
  - unfold ceil_div. div_mod.
  - intros Hle.
    replace (ceil_div (Z.max 1 (wordCount t)) 225) with 1; [reflexivity |].
    unfold ceil_div. div_mod.
Qed.

Lemma calculateReadingTime_minutes_witness :
  calculateReadingTime (js "  ") = js "1 min read".
Proof.
  apply (proj2 (proj2 (calculateReadingTime_minutes (js "  ")))).
  vm_compute. discriminate.
Defined.

(** ** The QR image of a generated link *)

Lemma well_formed_app a b :
  well_formed a = true -> well_formed b = true -> well_formed (a ++ b) = true.
Proof.
  intros Ha Hb. revert a Ha. apply well_formed_ind.
  - exact Hb.
  - intros c r Hl Ht Hc Hr IH. cbn [app well_formed].
    now rewrite Hl, Ht, Hc, IH.
  - intros c d r Hc Hd Hr IH. cbn [app well_formed].
    now rewrite Hc, Hd, IH.
Qed.

Lemma token_well_formed token :
  is_token token = true -> well_formed token = true.
Proof.
  unfold is_token. induction token as [| c r IH]; [reflexivity |].
  cbn [forallb well_formed]. intros H. apply andb_true_iff in H as [Hc Hr].
  assert (H : is_leading_surrogate c = false
              /\ is_trailing_surrogate c = false /\ code_unit c = true).
  { unfold_classes. bool_to_Z; repeat split; decide_tests. }
  destruct H as (-> & -> & ->). now rewrite IH.
Qed.

Lemma template_string_well_formed t :
  well_formed (template_string (encodeText t)) = true.
Proof.
  destruct (encodeText t) as [token |] eqn:Henc; [| reflexivity].
  apply token_well_formed. now apply (encodeText_is_token t).
Qed.

(** X14.  After a generation on any non-blank text, an ill-formed one
    included, the generated link is a valid string when the origin
    and the path are, so [encodeURIComponent] does not throw on it
    and the address of the QR image is defined. *)
Theorem qrSrc_defined (now : Z) (today : jsstring) (w : World) :
  nonblank (text w) = true ->
  well_formed (origin w) = true -> well_formed (pathname w) = true ->
  let w' := world_of (handleGenerate now today w) in
  well_formed (generatedLink w') = true /\ qrSrc w' <> None.
Proof.
  intros Hnb Horg Hpath. cbv zeta.
  assert (Hlink : generatedLink (world_of (handleGenerate now today w))
                  = link_of w (text w)).
  { unfold handleGenerate. unfold nonblank in Hnb. rewrite Hnb. cbn [negb].
    destruct (spread (history w)); reflexivity. }
  assert (Hwf : well_formed (link_of w (text w)) = true).
  { unfold link_of. apply well_formed_app; [assumption |].
    apply well_formed_app; [assumption |].
    change (HASH :: ?l) with ([HASH] ++ l).
    apply well_formed_app; [reflexivity |].
    apply template_string_well_formed. }
  rewrite Hlink. split; [exact Hwf |].
  unfold qrSrc. rewrite Hlink.
  destruct (encodeURIComponent_utf8 _ Hwf) as (e & -> & _). discriminate.
Qed.

Lemma qrSrc_defined_witness :
  let w := onChange [55357]
             (initial [] (js "https://x.test") (js "/app") []) in
  qrSrc (world_of (handleGenerate 1730000000000 (js "11/1/2026") w)) <> None.
Proof.
  intros w.
  apply (qrSrc_defined 1730000000000 (js "11/1/2026") w); reflexivity.
Defined.

(** ** [JSON.parse] reads what [JSON.stringify] writes *)

Lemma lower_digit d : 0 <= d < 16 -> Hex.value (Hex.lower d) = Some d.
Proof. exact (value_lower d). Qed.

Lemma hex4_lower_value c :
  0 <= c < 65536 ->
  JSON.hex4 (Hex.lower (c / 4096)) (Hex.lower ((c / 256) mod 16))
            (Hex.lower ((c / 16) mod 16)) (Hex.lower (c mod 16))
  = Some c.
Proof.
  intros H. unfold JSON.hex4, Hex.octet.
  rewrite !value_lower by div_mod. f_equal. div_mod.
Qed.

Lemma string_body_unicode c rest :
  0 <= c < 65536 ->
  JSON.string_body (JSON.unicode_escape c ++ rest)
  = parsed_map (cons c) (JSON.string_body rest).
Proof.
  intros H. unfold JSON.unicode_escape, JSON.hex4_lower.
  cbn [app JSON.string_body]. change (92 =? 34) with false.
  change (92 <? 32) with false. change (92 =? 92) with true.
  change (117 =? 117) with true. cbv iota.
  now rewrite hex4_lower_value.
Qed.

Lemma string_body_plain c rest :
  (c =? 34) = false -> (c <? 32) = false -> (c =? 92) = false ->
  JSON.string_body (c :: rest)
  = parsed_map (cons c) (JSON.string_body rest).
Proof. intros H1 H2 H3. cbn [JSON.string_body]. now rewrite H1, H2, H3. Qed.

(** A string literal is read back as the string it was written for. *)
Lemma string_body_quote_body rest :
  forall (n : nat) (s : jsstring),
    (length s <= n)%nat -> is_jsstring s = true ->
    JSON.string_body (JSON.quote_body s ++ 34 :: rest) = Parsed s rest.
Proof.
  induction n as [| n IH]; intros s Hlen Hjs.
  { destruct s; [reflexivity | cbn in Hlen; lia]. }
  destruct s as [| c r]; [reflexivity |].
  cbn [is_jsstring forallb] in Hjs. apply andb_true_iff in Hjs as [Hc Hr].
  assert (Hrange : 0 <= c < 65536) by (unfold_classes; bool_to_Z; lia).
  cbn [length] in Hlen.
  assert (IHr : JSON.string_body (JSON.quote_body r ++ 34 :: rest)
                = Parsed r rest) by (apply IH; [lia | exact Hr]).
  cbn [JSON.quote_body].
  destruct (Z.eqb_spec c 8) as [-> | H8].
  { change (parsed_map (cons 8)
              (JSON.string_body (JSON.quote_body r ++ 34 :: rest))
            = Parsed (8 :: r) rest).
    now rewrite IHr. }
  destruct (Z.eqb_spec c 9) as [-> | H9].
  { change (parsed_map (cons 9)
              (JSON.string_body (JSON.quote_body r ++ 34 :: rest))
            = Parsed (9 :: r) rest).
    now rewrite IHr. }
  destruct (Z.eqb_spec c 10) as [-> | H10].
  { change (parsed_map (cons 10)
              (JSON.string_body (JSON.quote_body r ++ 34 :: rest))
            = Parsed (10 :: r) rest).
    now rewrite IHr. }
  destruct (Z.eqb_spec c 12) as [-> | H12].
  { change (parsed_map (cons 12)
              (JSON.string_body (JSON.quote_body r ++ 34 :: rest))
            = Parsed (12 :: r) rest).
    now rewrite IHr. }
  destruct (Z.eqb_spec c 13) as [-> | H13].
  { change (parsed_map (cons 13)
              (JSON.string_body (JSON.quote_body r ++ 34 :: rest))
            = Parsed (13 :: r) rest).
    now rewrite IHr. }
  destruct (Z.eqb_spec c 34) as [-> | H34].
  { change (parsed_map (cons 34)
              (JSON.string_body (JSON.quote_body r ++ 34 :: rest))
            = Parsed (34 :: r) rest).
    now rewrite IHr. }
  destruct (Z.eqb_spec c 92) as [-> | H92].
  { change (parsed_map (cons 92)
              (JSON.string_body (JSON.quote_body r ++ 34 :: rest))
            = Parsed (92 :: r) rest).
    now rewrite IHr. }
  destruct (Z.ltb_spec c 32) as [Hlow | Hhigh].
  { now rewrite <- app_assoc, string_body_unicode, IHr. }
  assert (Hplain : forall x, 32 <= x -> x <> 34 -> x <> 92 -> forall tl,
             JSON.string_body (x :: tl)
             = parsed_map (cons x) (JSON.string_body tl)).
  { intros x Hx H1 H2 tl. apply string_body_plain.
    - now apply Z.eqb_neq.
    - now apply Z.ltb_ge.
    - now apply Z.eqb_neq. }
  destruct (is_leading_surrogate c) eqn:Hlead.
  - destruct r as [| d r'].
    + rewrite string_body_unicode by assumption. reflexivity.
    + destruct (is_trailing_surrogate d) eqn:Htrail.
      * cbn [app]. cbn [forallb] in Hr.
        apply andb_true_iff in Hr as [Hd Hr']. cbn [length] in Hlen.
        rewrite Hplain by (unfold_classes; bool_to_Z; lia).
        rewrite Hplain by (unfold_classes; bool_to_Z; lia).
        rewrite (IH r') by (auto; lia). reflexivity.
      * now rewrite <- app_assoc, string_body_unicode, IHr.
  - destruct (is_trailing_surrogate c).
    + now rewrite <- app_assoc, string_body_unicode, IHr.
    + cbn [app]. rewrite Hplain by lia. now rewrite IHr.
Qed.

Lemma string_body_quote s rest :
  is_jsstring s = true ->
  JSON.string_body (JSON.quote_body s ++ 34 :: rest) = Parsed s rest.
Proof. intros H. now apply (string_body_quote_body rest (length s)). Qed.

(** What follows a value is no part of a number. *)
Lemma delimited_head rest :
  delimited rest = true ->
  match rest with
  | [] => True
  | c :: _ =>
      is_digit c = false /\ (c =? MINUS) = false /\ (c =? PLUS) = false
      /\ (c =? 46) = false /\ (c =? 101) = false /\ (c =? 69) = false
      /\ JSON.is_whitespace c = false
  end.
Proof.
  destruct rest as [| c r]; [exact (fun _ => I) |]. cbn [delimited].
  intros H. unfold JSON.is_whitespace. unfold_classes.
  bool_to_Z; subst; repeat split; reflexivity.
Qed.

Lemma digits_app s rest :
  delimited rest = true ->
  JSON.digits (s ++ rest)
  = (fst (JSON.digits s), snd (JSON.digits s) ++ rest).
Proof.
  intros Hrest. induction s as [| c r IH]; cbn [app JSON.digits].
  - destruct rest as [| c r]; [reflexivity |].
    apply delimited_head in Hrest as (Hd & _).
    cbn [JSON.digits]. now rewrite Hd.
  - destruct (is_digit c); [| reflexivity].
    rewrite IH. now destruct (JSON.digits r).
Qed.

Lemma sign_app plus s rest :
  delimited rest = true ->
  JSON.sign plus (s ++ rest)
  = (fst (JSON.sign plus s), snd (JSON.sign plus s) ++ rest).
Proof.
  intros Hrest. destruct s as [| c r]; cbn [app JSON.sign].
  - destruct rest as [| c r]; [reflexivity |].
    apply delimited_head in Hrest as (_ & Hm & Hp & _).
    cbn [JSON.sign]. rewrite Hm, Hp. now rewrite andb_false_r.
  - now destruct (_ || _).
Qed.

Lemma integer_part_app s rest :
  delimited rest = true ->
  JSON.integer_part (s ++ rest) = before rest (JSON.integer_part s).
Proof.
  intros Hrest. unfold JSON.integer_part. rewrite digits_app by assumption.
  destruct (JSON.digits s) as [[| d ds] r]; cbn [fst snd]; [reflexivity |].
  destruct (d =? 48); cbn; [| reflexivity]. now rewrite app_assoc.
Qed.

Lemma fraction_app s rest :
  delimited rest = true ->
  JSON.fraction (s ++ rest) = before rest (JSON.fraction s).
Proof.
  intros Hrest. destruct s as [| c r]; cbn [app JSON.fraction].
  - destruct rest as [| c r]; [reflexivity |].
    apply delimited_head in Hrest as (_ & _ & _ & Hdot & _).
    cbn [JSON.fraction]. now rewrite Hdot.
  - destruct (c =? 46); [| reflexivity].
    rewrite digits_app by assumption.
    now destruct (JSON.digits r) as [[| f fs] r'].
Qed.

Lemma exponent_app s rest :
  delimited rest = true ->
  JSON.exponent (s ++ rest) = before rest (JSON.exponent s).
Proof.
  intros Hrest. destruct s as [| c r]; cbn [app JSON.exponent].
  - destruct rest as [| c r]; [reflexivity |].
    apply delimited_head in Hrest as (_ & _ & _ & _ & He & HE & _).
    cbn [JSON.exponent]. now rewrite He, HE.
  - destruct (_ || _); [| reflexivity].
    rewrite sign_app by assumption.
    destruct (JSON.sign true r) as [sg r1]. cbn [fst snd].
    rewrite digits_app by assumption.
    now destruct (JSON.digits r1) as [[| d ds] r2].
Qed.

Lemma number_app s rest :
  delimited rest = true ->
  JSON.number (s ++ rest)
  = match JSON.number s with
    | Parsed l r => Parsed l (r ++ rest)
    | Malformed => Malformed
    | Exhausted => Exhausted
    end.
Proof.
  intros Hrest. unfold JSON.number. rewrite sign_app by assumption.
  destruct (JSON.sign false s) as [sg s1]. cbn [fst snd].
  rewrite integer_part_app by assumption.
  destruct (JSON.integer_part s1) as [[int s2] |]; cbn [before option_map fst snd];
    [| reflexivity].
  rewrite fraction_app by assumption.
  destruct (JSON.fraction s2) as [[frac s3] |]; cbn [before option_map fst snd];
    [| reflexivity].
  rewrite exponent_app by assumption.
  now destruct (JSON.exponent s3) as [[ex s4] |].
Qed.

Lemma jsstring_eqb_eq a b : jsstring_eqb a b = true -> a = b.
Proof.
  unfold jsstring_eqb. now destruct (list_eq_dec Z.eq_dec a b).
Qed.

Lemma number_literal lit rest :
  is_number_literal lit = true -> delimited rest = true ->
  JSON.number (lit ++ rest) = Parsed lit rest.
Proof.
  unfold is_number_literal. intros Hlit Hrest.
  rewrite number_app by assumption.
  destruct (JSON.number lit) as [l [| x r] | |]; try discriminate.
  apply jsstring_eqb_eq in Hlit. now subst.
Qed.

(** A number literal starts with a minus sign or a digit. *)
Lemma number_literal_head lit :
  is_number_literal lit = true ->
  exists c r, lit = c :: r /\ (c =? MINUS) || is_digit c = true.
Proof.
  unfold is_number_literal, JSON.number. destruct lit as [| c r].
  - cbn. discriminate.
  - intros H. exists c, r. split; [reflexivity |].
    cbn [JSON.sign] in H. cbn [andb orb] in H. rewrite orb_false_r in H.
    destruct (c =? MINUS); [reflexivity |].
    unfold JSON.integer_part in H. cbn [JSON.digits] in H.
    destruct (is_digit c); [reflexivity | discriminate].
Qed.

(** Induction on values, through the elements of arrays and the
    members of objects. *)
Lemma value_induction (P : value -> Prop) :
  P VNull -> (forall b, P (VBool b)) -> (forall l, P (VNum l)) ->
  (forall s, P (VStr s)) ->
  (forall items, Forall P items -> P (VArr items)) ->
  (forall fields, Forall (fun kv => P (snd kv)) fields -> P (VObj fields)) ->
  forall v, P v.
Proof.
  intros Hnull Hbool Hnum Hstr Harr Hobj.
  fix IH 1. intros [| b | l | s | items | fields].
  - exact Hnull.
  - apply Hbool.
  - apply Hnum.
  - apply Hstr.
  - apply Harr. induction items as [| x r IHr]; constructor;
      [apply IH | exact IHr].
  - apply Hobj. induction fields as [| [k x] r IHr]; constructor;
      [apply IH | exact IHr].
Qed.

(** More budget than the descent needs changes nothing. *)
Lemma descent_stable (n : nat) :
  (forall s m, (n <= m)%nat -> JSON.parse_value n s <> Exhausted ->
               JSON.parse_value m s = JSON.parse_value n s)
  /\ (forall s m, (n <= m)%nat -> JSON.parse_elements n s <> Exhausted ->
                  JSON.parse_elements m s = JSON.parse_elements n s)
  /\ (forall s m, (n <= m)%nat -> JSON.parse_members n s <> Exhausted ->
                  JSON.parse_members m s = JSON.parse_members n s).
Proof.
  induction n as [| n (IHv & IHe & IHm)].
  { repeat split; intros s m _ H; now destruct H. }
  split; [| split]; intros s [| m] Hle Hne; try lia;
    apply le_S_n in Hle.
  - cbn [JSON.parse_value] in *.
    destruct (JSON.skip_whitespace s) as [| c r]; [reflexivity |].
    destruct (c =? 123).
    { destruct (JSON.skip_whitespace r) as [| c' r']; [reflexivity |].
      destruct (c' =? 125); [reflexivity |].
      rewrite (IHm (c' :: r') m Hle); [reflexivity |].
      intros E. apply Hne. now rewrite E. }
    destruct (c =? 91); [| reflexivity].
    destruct (JSON.skip_whitespace r) as [| c' r']; [reflexivity |].
    destruct (c' =? 93); [reflexivity |].
    rewrite (IHe (c' :: r') m Hle); [reflexivity |].
    intros E. apply Hne. now rewrite E.
  - cbn [JSON.parse_elements] in *.
    rewrite (IHv s m Hle) by (intros E; apply Hne; now rewrite E).
    destruct (JSON.parse_value n s) as [v r | |]; try reflexivity.
    destruct (JSON.skip_whitespace r) as [| c r']; [reflexivity |].
    destruct (c =? 44); [| reflexivity].
    rewrite (IHe r' m Hle); [reflexivity |].
    intros E. apply Hne. now rewrite E.
  - cbn [JSON.parse_members] in *.
    destruct (JSON.skip_whitespace s) as [| q' r0]; [reflexivity |].
    destruct (q' =? 34); [| reflexivity].
    destruct (JSON.string_body r0) as [k r1 | |]; try reflexivity.
    destruct (JSON.skip_whitespace r1) as [| colon r2]; [reflexivity |].
    destruct (colon =? 58); [| reflexivity].
    rewrite (IHv r2 m Hle) by (intros E; apply Hne; now rewrite E).
    destruct (JSON.parse_value n r2) as [v r3 | |]; try reflexivity.
    destruct (JSON.skip_whitespace r3) as [| c r4]; [reflexivity |].
    destruct (c =? 44); [| reflexivity].
    rewrite (IHm r4 m Hle); [reflexivity |].
    intros E. apply Hne. now rewrite E.
Qed.

Lemma skip_whitespace_head c r :
  JSON.is_whitespace c = false -> JSON.skip_whitespace (c :: r) = c :: r.
Proof. intros H. cbn. now rewrite H. Qed.

(** The first character of a written value is no white space and no
    closing bracket. *)
Lemma stringify_head v :
  storable v = true ->
  exists c tl,
    JSON.stringify v = c :: tl /\ JSON.is_whitespace c = false
    /\ (c =? 93) = false /\ (c =? 125) = false.
Proof.
  destruct v as [| [|] | l | s | items | fields]; cbn [storable];
    intros H; try (eexists _, _; repeat split; reflexivity).
  unfold is_integer_literal in H. apply andb_true_iff in H as [H _].
  apply number_literal_head in H as (c & r & -> & Hc).
  exists c, r. cbn [JSON.stringify]. unfold JSON.is_whitespace.
  unfold_classes. bool_to_Z; subst; repeat split; decide_tests.
Qed.

Lemma parse_elements_step m s v c r :
  JSON.parse_value m s = Parsed v (c :: r) ->
  JSON.is_whitespace c = false ->
  JSON.parse_elements (S m) s
  = if c =? 44 then parsed_map (cons v) (JSON.parse_elements m r)
    else if c =? 93 then Parsed [v] r else Malformed.
Proof.
  intros Hv Hc. cbn [JSON.parse_elements].
  now rewrite Hv, skip_whitespace_head.
Qed.

Lemma parse_members_step m r0 k r2 v c r4 :
  JSON.string_body r0 = Parsed k (58 :: r2) ->
  JSON.parse_value m r2 = Parsed v (c :: r4) ->
  JSON.is_whitespace c = false ->
  JSON.parse_members (S m) (34 :: r0)
  = if c =? 44 then parsed_map (cons (k, v)) (JSON.parse_members m r4)
    else if c =? 125 then Parsed [(k, v)] r4 else Malformed.
Proof.
  intros Hk Hv Hc. cbn [JSON.parse_members].
  rewrite skip_whitespace_head by reflexivity.
  change (34 =? 34) with true. cbv iota. rewrite Hk.
  rewrite skip_whitespace_head by reflexivity.
  change (58 =? 58) with true. cbv iota.
  now rewrite Hv, skip_whitespace_head.
Qed.

Lemma elements_read_back x xs rest :
  Forall (fun v => storable v = true -> reads_back v) (x :: xs) ->
  forallb storable (x :: xs) = true ->
  exists n, forall m, (n <= m)%nat ->
    JSON.parse_elements m
      (JSON.join (map JSON.stringify (x :: xs)) ++ 93 :: rest)
    = Parsed (x :: xs) rest.
Proof.
  revert x. induction xs as [| y ys IH]; intros x Hall Hst.
  - inversion_clear Hall as [| ? ? Hx _]. cbn [forallb] in Hst.
    apply andb_true_iff in Hst as [Hsx _].
    destruct (Hx Hsx (93 :: rest) eq_refl) as (n & Hn).
    exists (S n). intros [| m] Hm; [lia |]. cbn [map JSON.join].
    rewrite (parse_elements_step m _ x 93 rest); [reflexivity | | reflexivity].
    apply Hn. lia.
  - inversion_clear Hall as [| ? ? Hx Hrest]. cbn [forallb] in Hst.
    apply andb_true_iff in Hst as [Hsx Hsrest].
    destruct (IH y Hrest Hsrest) as (n2 & Hn2).
    set (tail := JSON.join (map JSON.stringify (y :: ys)) ++ 93 :: rest) in *.
    destruct (Hx Hsx (44 :: tail) eq_refl) as (n1 & Hn1).
    exists (S (Nat.max n1 n2)). intros [| m] Hm; [lia |].
    change (JSON.join (map JSON.stringify (x :: y :: ys)))
      with (JSON.stringify x ++ 44 :: JSON.join (map JSON.stringify (y :: ys))).
    rewrite <- app_assoc. cbn [app]. fold tail.
    rewrite (parse_elements_step m _ x 44 tail);
      [| apply Hn1; lia | reflexivity].
    change (44 =? 44) with true. cbv iota.
    rewrite Hn2 by lia. reflexivity.
Qed.

Lemma members_read_back f fs rest :
  Forall (fun kv => storable (snd kv) = true -> reads_back (snd kv)) (f :: fs) ->
  forallb (fun kv => is_jsstring (fst kv) && storable (snd kv)) (f :: fs)
  = true ->
  exists n, forall m, (n <= m)%nat ->
    JSON.parse_members m (JSON.join (map member_text (f :: fs)) ++ 125 :: rest)
    = Parsed (f :: fs) rest.
Proof.
  revert f. induction fs as [| g gs IH]; intros [k x] Hall Hst.
  - inversion_clear Hall as [| ? ? Hx _]. cbn [forallb fst snd] in *.
    apply andb_true_iff in Hst as [Hst _].
    apply andb_true_iff in Hst as [Hk Hsx].
    destruct (Hx Hsx (125 :: rest) eq_refl) as (n & Hn).
    exists (S n). intros [| m] Hm; [lia |].
    cbn [map JSON.join]. unfold member_text, JSON.quote. cbn [fst snd].
    rewrite <- ?app_assoc. cbn [app]. rewrite <- ?app_assoc. cbn [app].
    rewrite (parse_members_step m _ k (JSON.stringify x ++ 125 :: rest)
               x 125 rest);
      [reflexivity | now apply string_body_quote | apply Hn; lia
      | reflexivity].
  - inversion_clear Hall as [| ? ? Hx Hrest]. cbn [forallb fst snd] in *.
    apply andb_true_iff in Hst as [Hst Hsrest].
    apply andb_true_iff in Hst as [Hk Hsx].
    destruct (IH g Hrest Hsrest) as (n2 & Hn2).
    set (tail := JSON.join (map member_text (g :: gs)) ++ 125 :: rest) in *.
    destruct (Hx Hsx (44 :: tail) eq_refl) as (n1 & Hn1).
    exists (S (Nat.max n1 n2)). intros [| m] Hm; [lia |].
    change (JSON.join (map member_text ((k, x) :: g :: gs)))
      with (member_text (k, x) ++ 44 :: JSON.join (map member_text (g :: gs))).
    unfold member_text at 1. unfold JSON.quote. cbn [fst snd].
    rewrite <- ?app_assoc. cbn [app]. rewrite <- ?app_assoc. cbn [app].
    fold tail.
    rewrite (parse_members_step m _ k (JSON.stringify x ++ 44 :: tail)
               x 44 tail);
      [| now apply string_body_quote | apply Hn1; lia | reflexivity].
    change (44 =? 44) with true. cbv iota.
    rewrite Hn2 by lia. reflexivity.
Qed.

Lemma parse_value_array m c r items rest :
  JSON.is_whitespace c = false -> (c =? 93) = false ->
  JSON.parse_elements m (c :: r) = Parsed items rest ->
  JSON.parse_value (S m) (91 :: c :: r) = Parsed (VArr items) rest.
Proof.
  intros Hws Hc Hp. cbn [JSON.parse_value].
  rewrite skip_whitespace_head by reflexivity.
  change (91 =? 123) with false. change (91 =? 91) with true. cbv iota.
  now rewrite skip_whitespace_head, Hc, Hp.
Qed.

Lemma parse_value_object m c r fields rest :
  JSON.is_whitespace c = false -> (c =? 125) = false ->
  JSON.parse_members m (c :: r) = Parsed fields rest ->
  JSON.parse_value (S m) (123 :: c :: r) = Parsed (VObj fields) rest.
Proof.
  intros Hws Hc Hp. cbn [JSON.parse_value].
  rewrite skip_whitespace_head by reflexivity.
  change (123 =? 123) with true. cbv iota.
  now rewrite skip_whitespace_head, Hc, Hp.
Qed.

Lemma join_head (parts : list jsstring) c tl ps :
  parts = (c :: tl) :: ps -> exists tl', JSON.join parts = c :: tl'.
Proof. intros ->. destruct ps; cbn; eexists; reflexivity. Qed.

Lemma storable_reads_back : forall v, storable v = true -> reads_back v.
Proof.
  apply (value_induction (fun v => storable v = true -> reads_back v)).
  - intros _ rest _. exists 1%nat. intros [| m] Hm; [lia | reflexivity].
  - intros [|] _ rest _; exists 1%nat; intros [| m] Hm; try lia; reflexivity.
  - intros l Hl rest Hrest. exists 1%nat. intros [| m] Hm; [lia |].
    cbn [storable JSON.stringify] in *. unfold is_integer_literal in Hl.
    apply andb_true_iff in Hl as [Hl _].
    pose proof Hl as Hlit.
    destruct (number_literal_head l Hl) as (c & r & Heq & Hc). subst l.
    assert (Hws : JSON.is_whitespace c = false
                  /\ (c =? 123) = false /\ (c =? 91) = false
                  /\ (c =? 34) = false).
    { unfold JSON.is_whitespace. unfold_classes.
      bool_to_Z; subst; repeat split; decide_tests. }
    destruct Hws as (Hws & H1 & H2 & H3).
    cbn [app JSON.parse_value]. rewrite skip_whitespace_head by assumption.
    rewrite H1, H2, H3, Hc.
    change (c :: r ++ rest) with ((c :: r) ++ rest).
    now rewrite number_literal.
  - intros s Hs rest _. exists 1%nat. intros [| m] Hm; [lia |].
    cbn [storable JSON.stringify] in *. unfold JSON.quote.
    cbn [app JSON.parse_value]. rewrite skip_whitespace_head by reflexivity.
    change (34 =? 123) with false. change (34 =? 91) with false.
    change (34 =? 34) with true. cbv iota.
    rewrite <- app_assoc. cbn [app]. now rewrite string_body_quote.
  - intros [| x xs] Hall Hst rest _.
    { exists 1%nat. intros [| m] Hm; [lia | reflexivity]. }
    cbn [storable] in Hst.
    destruct (elements_read_back x xs rest Hall Hst) as (n & Hn).
    assert (Hx : storable x = true)
      by (cbn [forallb] in Hst; now apply andb_true_iff in Hst as [? _]).
    destruct (stringify_head x Hx) as (c & tl & Hhead & Hws & H93 & _).
    destruct (join_head (map JSON.stringify (x :: xs)) c tl
                (map JSON.stringify xs)) as (tl' & Hjoin).
    { cbn [map]. now rewrite Hhead. }
    exists (S n). intros [| m] Hm; [lia |].
    specialize (Hn m ltac:(lia)).
    cbn [JSON.stringify app]. rewrite <- app_assoc.
    rewrite Hjoin in *. cbn [app] in *.
    now apply parse_value_array.
  - intros [| [k x] fs] Hall Hst rest _.
    { exists 1%nat. intros [| m] Hm; [lia | reflexivity]. }
    cbn [storable] in Hst. apply andb_true_iff in Hst as [Hst _].
    apply andb_true_iff in Hst as [Hst _].
    destruct (members_read_back (k, x) fs rest Hall Hst) as (n & Hn).
    destruct (join_head (map member_text ((k, x) :: fs)) 34
                ((JSON.quote_body k ++ [34]) ++ 58 :: JSON.stringify x)
                (map member_text fs)) as (tl' & Hjoin).
    { reflexivity. }
    exists (S n). intros [| m] Hm; [lia |].
    specialize (Hn m ltac:(lia)).
    cbn [JSON.stringify app]. rewrite <- app_assoc.
    change (map (fun kv => JSON.quote (fst kv) ++ 58 :: JSON.stringify (snd kv))
                ((k, x) :: fs))
      with (map member_text ((k, x) :: fs)).
    rewrite Hjoin in *. cbn [app] in *.
    now apply parse_value_object.
Qed.

Lemma parse_reads_stringify (v : value) :
  storable v = true -> JSON.parse (JSON.stringify v) = Parsed v [].
Proof.
  intros Hv. destruct (storable_reads_back v Hv [] eq_refl) as (n & Hn).
  rewrite app_nil_r in Hn. unfold JSON.parse.
  set (s := JSON.stringify v) in *.
  assert (Hb : JSON.parse_value (JSON.budget s) s <> Exhausted).
  { intros E.
    pose proof (proj1 (descent_within (JSON.budget s)) s) as H.
    rewrite E in H. apply H. unfold JSON.budget. lia. }
  pose proof (proj1 (descent_stable (JSON.budget s)) s
                (Nat.max n (JSON.budget s)) ltac:(lia) Hb) as Hs.
  rewrite <- Hs, Hn by lia. reflexivity.
Qed.

(** X15.  [JSON.parse] reads the text that [JSON.stringify] writes
    for a value back as that value, with nothing left over, when the
    numbers in it are safe integers, its strings and keys are
    JavaScript strings, and the keys of each object are distinct and
    not written with digits only.  So two such values with the same
    text are the same value: nothing of a history is lost in
    storage. *)
Theorem parse_stringify (v : value) :
  storable v = true ->
  JSON.parse (JSON.stringify v) = Parsed v []
  /\ (forall v', storable v' = true ->
                 JSON.stringify v' = JSON.stringify v -> v' = v).
Proof.
  intros Hv. split; [now apply parse_reads_stringify |].
  intros v' Hv' Heq.
  pose proof (parse_reads_stringify v' Hv') as Hparse.
  rewrite Heq, (parse_reads_stringify v Hv) in Hparse.
  now injection Hparse.
Qed.

Lemma parse_stringify_witness :
  let v := VArr [newHistoryItem 1730000000000 (js "11/1/2026") sample
                   (js "https://x.test/app#YQ")] in
  JSON.parse (JSON.stringify v) = Parsed v [].
Proof. intros v. apply (proj1 (parse_stringify v eq_refl)). Defined.

(** ** The entries of the history are storable *)



















(** ** The stored history through a whole session *)








(** ** Further facts on the generator *)

Lemma jsstring_eqb_sym a b : jsstring_eqb a b = jsstring_eqb b a.
Proof.
  unfold jsstring_eqb.
  destruct (list_eq_dec Z.eq_dec a b), (list_eq_dec Z.eq_dec b a);
    congruence.
Qed.

Lemma getItem_setItem_other key key' v store :
  jsstring_eqb key' key = false ->
  getItem key' (setItem key v store) = getItem key' store.
Proof.
  intros Hne. induction store as [| [k v'] r IH]; cbn [setItem getItem].
  - rewrite jsstring_eqb_sym. now rewrite Hne.
  - destruct (jsstring_eqb k key) eqn:Hk; cbn [getItem].
    + destruct (jsstring_eqb k key') eqn:Hk'; [| reflexivity].
      apply jsstring_eqb_eq in Hk, Hk'. subst.
      now rewrite jsstring_eqb_refl in Hne.
    + now rewrite IH.
Qed.

(** X18.  [handleGenerate] writes one item of [localStorage] only:
    whatever is stored under a key other than ['textshare_history']
    is still there afterwards, on every path of the handler. *)
Theorem handleGenerate_other_keys
    (now : Z) (today key : jsstring) (w : World) :
  jsstring_eqb key history_key = false ->
  getItem key (localStorage (world_of (handleGenerate now today w)))
  = getItem key (localStorage w).
Proof.
  intros Hkey. unfold handleGenerate.
  destruct (negb (truthy (trim (text w)))); [reflexivity |].
  destruct (spread (history w)); [| reflexivity].
  cbn [world_of showToast setToast localStorage_setItem localStorage].
  now apply getItem_setItem_other.
Qed.

Lemma handleGenerate_other_keys_witness :
  let w := onChange sample
             (initial [] (js "https://x.test") (js "/app")
                [(js "theme", js "dark")]) in
  getItem (js "theme")
    (localStorage (world_of (handleGenerate 1 (js "1/1/1970") w)))
  = Some (js "dark").
Proof.
  intros w.
  apply (handleGenerate_other_keys 1 (js "1/1/1970") (js "theme") w).
  reflexivity.
Defined.




(** X20.  On a valid string [encodeText] computes the URL-safe base64
    of the UTF-8 octets of the string, without padding: the detour
    through [encodeURIComponent] and the replacement of its escapes
    comes to the UTF-8 encoding. *)
Theorem encodeText_base64url_utf8 (t : jsstring) :
  well_formed t = true ->
  encodeText t
  = Some (strip_trailing_equals
            (map url_safe (Base64.encode (utf8_of t)))).
Proof.
  intros Hwf. rewrite encodeText_well_formed by assumption.
  rewrite <- replace_url_safe, strip_replace_encode; [reflexivity |].
  now apply utf8_of_range.
Qed.

Lemma encodeText_base64url_utf8_witness :
  encodeText sample
  = Some (strip_trailing_equals
            (map url_safe (Base64.encode (utf8_of sample)))).
Proof. apply (encodeText_base64url_utf8 sample). reflexivity. Defined.
